(** * HDL AI Proteus: the HDL processor, embedded and verified

    A shallow embedding of [src/core/hdl_processor.py] (class [HDLProcessor])
    together with the part of Python's [str] and [re] that it calls.

    Texts are lists of 8-bit characters, read as the code points 0..255
    (Latin-1); the character classes and the case mapping below are the ones
    Python uses on these code points. *)

From Stdlib Require Import Ascii String DecimalString.
From Stdlib Require Import Bool Arith NArith ZArith List Lia.
Import ListNotations.

Set Implicit Arguments.

(* ================================================================= *)
(** ** Characters and texts *)

Definition str := list ascii.

(** A literal of the source, as a text. *)
Definition lit (s : string) : str := list_ascii_of_string s.

Definition code (c : ascii) : N := N_of_ascii c.

Definition in_range (lo hi : N) (c : ascii) : bool :=
  (N.leb lo (code c) && N.leb (code c) hi)%bool.

(** [str.isspace] and the class [\s]. *)
Definition isspace (c : ascii) : bool :=
  in_range 9 13 c || in_range 28 32 c
  || N.eqb (code c) 133 || N.eqb (code c) 160.

(** [str.isalnum]. *)
Definition isalnum (c : ascii) : bool :=
  in_range 48 57 c || in_range 65 90 c || in_range 97 122 c
  || N.eqb (code c) 170 || in_range 178 179 c || N.eqb (code c) 181
  || in_range 185 186 c || in_range 188 190 c
  || in_range 192 214 c || in_range 216 246 c || in_range 248 255 c.

(** The class [\w]: alphanumeric or underscore. *)
Definition isword (c : ascii) : bool :=
  isalnum c || N.eqb (code c) 95.

(** The simple lower-case mapping, which is both [str.lower] on one
    character and the folding [re.IGNORECASE] compares with. *)
Definition lower_char (c : ascii) : ascii :=
  if in_range 65 90 c || in_range 192 214 c || in_range 216 222 c
  then ascii_of_N (code c + 32) else c.

(** [str.lower]. *)
Definition lower (s : str) : str := map lower_char s.

Definition newline : ascii := ascii_of_N 10.

Definition ascii_eqb (a b : ascii) : bool := Ascii.eqb a b.

Fixpoint str_eqb (a b : str) : bool :=
  match a, b with
  | [], [] => true
  | x :: a', y :: b' => Ascii.eqb x y && str_eqb a' b'
  | _, _ => false
  end.

(** [s.startswith(p)]. *)
Fixpoint startswith (p s : str) : bool :=
  match p, s with
  | [], _ => true
  | x :: p', y :: s' => Ascii.eqb x y && startswith p' s'
  | _ :: _, [] => false
  end.

(** [sub in s]: substring test. *)
Fixpoint contains (sub s : str) : bool :=
  startswith sub s ||
  match s with
  | [] => false
  | _ :: s' => contains sub s'
  end.

(** [s.lstrip()], [s.rstrip()], [s.strip()]. *)
Fixpoint lstrip (s : str) : str :=
  match s with
  | c :: s' => if isspace c then lstrip s' else s
  | [] => []
  end.

Definition rstrip (s : str) : str := rev (lstrip (rev s)).

Definition strip (s : str) : str := rstrip (lstrip s).

(** [s.split(sep)] for a one-character separator: never empty. *)
Fixpoint split_on (sep : ascii) (s : str) : list str :=
  match s with
  | [] => [[]]
  | c :: s' =>
      if Ascii.eqb c sep then [] :: split_on sep s'
      else match split_on sep s' with
           | l :: ls => (c :: l) :: ls
           | [] => [[c]]
           end
  end.

(** [sep.join(parts)]. *)
Fixpoint join (sep : str) (parts : list str) : str :=
  match parts with
  | [] => []
  | [p] => p
  | p :: ps => p ++ sep ++ join sep ps
  end.

(** [str(n)] for a natural number. *)
Definition str_of_nat (n : nat) : str :=
  lit (NilZero.string_of_uint (Nat.to_uint n)).

(** Declarative counterpart of [contains]: the text [sub] occurs in [s]. *)
Definition Occurs (sub s : str) : Prop := exists a b, s = a ++ sub ++ b.

(* ================================================================= *)
(** ** Python's [re]: patterns and the backtracking matcher

    The patterns of the processor use literals, the classes [\s], [\w],
    [.] (always under [re.DOTALL]) and bracket sets, the assertion [\b],
    repetition of one character class (greedy or lazy), alternation and
    numbered groups.  The matcher below explores the alternatives in the
    order of Python's engine: a greedy repetition tries the longest run
    first, a lazy one the shortest, an alternation its left branch first. *)

Inductive cset : Type :=
| CChar (c : ascii)          (* a literal character *)
| CSpace                     (* \s *)
| CWord                      (* \w *)
| CAny                       (* . with DOTALL *)
| CUnion (a b : cset)        (* [ab] *)
| CNot (a : cset).           (* [^a] *)

(** Membership; [ic] is the flag [re.IGNORECASE]. *)
Fixpoint cset_mem (ic : bool) (cs : cset) (c : ascii) : bool :=
  match cs with
  | CChar x =>
      if ic then Ascii.eqb (lower_char c) (lower_char x) else Ascii.eqb c x
  | CSpace => isspace c
  | CWord => isword c
  | CAny => true
  | CUnion a b => cset_mem ic a c || cset_mem ic b c
  | CNot a => negb (cset_mem ic a c)
  end.

Inductive regex : Type :=
| Eps
| Chr (cs : cset)                              (* one character *)
| Bnd                                          (* \b *)
| Rep (greedy : bool) (min : nat) (cs : cset)  (* x*  x+  x*?  x+? *)
| Cat (r1 r2 : regex)
| Alt (r1 r2 : regex)
| Grp (i : nat) (r : regex).                   (* group number i *)

(** A literal text as a pattern; also what [re.escape(text)] compiles to. *)
Fixpoint word (w : str) : regex :=
  match w with
  | [] => Eps
  | c :: w' => Cat (Chr (CChar c)) (word w')
  end.

(** Concatenation of a list of patterns. *)
Fixpoint seq (rs : list regex) : regex :=
  match rs with
  | [] => Eps
  | [r] => r
  | r :: rs' => Cat r (seq rs')
  end.

(** Number of groups of a pattern ([pattern.groups]). *)
Fixpoint ngroups (r : regex) : nat :=
  match r with
  | Cat a b | Alt a b => Nat.max (ngroups a) (ngroups b)
  | Grp i a => Nat.max i (ngroups a)
  | _ => 0
  end.

(** Captured groups, most recent first. *)
Definition caps := list (nat * str).

Fixpoint group (i : nat) (cs : caps) : option str :=
  match cs with
  | [] => None
  | (j, w) :: cs' => if Nat.eqb i j then Some w else group i cs'
  end.

Definition wordish (o : option ascii) : bool :=
  match o with Some c => isword c | None => false end.

(** [\b] holds between [prev] and the head of [s]. *)
Definition at_boundary (prev : option ascii) (s : str) : bool :=
  xorb (wordish prev) (wordish (hd_error s)).

Section Matcher.

Variable ic : bool.
Variable A : Type.

(** Greedy repetition of the class [p], at least [min] times, then [k]. *)
Fixpoint rep_greedy (p : ascii -> bool) (min : nat) (prev : option ascii)
    (s : str) (k : option ascii -> str -> option A) {struct s} : option A :=
  match s with
  | c :: s' =>
      if p c then
        match rep_greedy p (pred min) (Some c) s' k with
        | Some a => Some a
        | None => match min with 0 => k prev s | S _ => None end
        end
      else match min with 0 => k prev s | S _ => None end
  | [] => match min with 0 => k prev s | S _ => None end
  end.

(** Lazy repetition: [k] is tried before one more character is taken. *)
Fixpoint rep_lazy (p : ascii -> bool) (min : nat) (prev : option ascii)
    (s : str) (k : option ascii -> str -> option A) {struct s} : option A :=
  let more :=
    match s with
    | c :: s' => if p c then rep_lazy p (pred min) (Some c) s' k else None
    | [] => None
    end in
  match min with
  | 0 => match k prev s with Some a => Some a | None => more end
  | S _ => more
  end.

(** [mt r prev s cs k]: match [r] at the head of [s], the character before
    being [prev], then continue with [k]; [None] is failure, after which the
    caller backtracks. *)
Fixpoint mt (r : regex) (prev : option ascii) (s : str) (cs : caps)
    (k : option ascii -> str -> caps -> option A) {struct r} : option A :=
  match r with
  | Eps => k prev s cs
  | Chr c =>
      match s with
      | x :: s' => if cset_mem ic c x then k (Some x) s' cs else None
      | [] => None
      end
  | Bnd => if at_boundary prev s then k prev s cs else None
  | Rep g min c =>
      (if g then rep_greedy else rep_lazy) (cset_mem ic c) min prev s
        (fun p' s' => k p' s' cs)
  | Cat r1 r2 => mt r1 prev s cs (fun p' s' cs' => mt r2 p' s' cs' k)
  | Alt r1 r2 =>
      match mt r1 prev s cs k with
      | Some a => Some a
      | None => mt r2 prev s cs k
      end
  | Grp i r1 =>
      mt r1 prev s cs
        (fun p' s' cs' =>
           k p' s' ((i, firstn (length s - length s') s) :: cs'))
  end.

End Matcher.

(** A match at the head of [s]: its length and its groups.  With
    [must_advance] an empty match is refused (the engine's flag of the same
    name, set by [sub] and [findall] after an empty match). *)
Definition match_here (ic : bool) (must_advance : bool) (r : regex)
    (prev : option ascii) (s : str) : option (nat * caps) :=
  mt ic r prev s []
    (fun _ s' cs =>
       if must_advance && Nat.eqb (length s') (length s) then None
       else Some (length s - length s', cs)).

(** A match found by [re.search]. *)
Record found : Type := Found {
  m_start : nat;       (* offset of the match *)
  m_text : str;        (* group 0 *)
  m_groups : caps
}.

Fixpoint search_from (ic : bool) (r : regex) (pos : nat)
    (prev : option ascii) (s : str) : option found :=
  match match_here ic false r prev s with
  | Some (n, cs) => Some (Found pos (firstn n s) cs)
  | None =>
      match s with
      | [] => None
      | c :: s' => search_from ic r (S pos) (Some c) s'
      end
  end.

(** [re.search(r, s)]: the leftmost match. *)
Definition re_search (ic : bool) (r : regex) (s : str) : option found :=
  search_from ic r 0 None s.

(** Scanning for successive non-overlapping matches, as [re.sub] and
    [re.findall] do: unmatched characters and matches, in order. *)
Inductive piece : Type :=
| Gap (c : ascii)
| Hit (w : str) (cs : caps).

(** What happens at a position where no match is under way: the matches
    starting here (an empty one may be followed by a non-empty one) and the
    number of further characters the last one covers. *)
Definition attempt (ic : bool) (r : regex) (prev : option ascii) (s : str)
    : list piece * option nat :=
  match match_here ic false r prev s with
  | Some (S n, cs) => ([Hit (firstn (S n) s) cs], Some n)
  | Some (0, cs) =>
      match match_here ic true r prev s with
      | Some (S n, cs') => ([Hit [] cs; Hit (firstn (S n) s) cs'], Some n)
      | _ => ([Hit [] cs], None)
      end
  | None => ([], None)
  end.

Fixpoint scan (ic : bool) (r : regex) (skip : option nat)
    (prev : option ascii) (s : str) {struct s} : list piece :=
  match s with
  | [] =>
      match skip with
      | Some (S _) => []
      | _ => fst (attempt ic r prev [])
      end
  | c :: s' =>
      match skip with
      | Some (S k) => scan ic r (Some k) (Some c) s'
      | _ =>
          let (out, m) := attempt ic r prev s in
          match m with
          | Some n => out ++ scan ic r (Some n) (Some c) s'
          | None => out ++ Gap c :: scan ic r None (Some c) s'
          end
      end
  end.

(** [re.findall(r, s)] for a pattern with at most one group: the group if
    there is one, the whole match otherwise. *)
Definition findall_item (r : regex) (p : piece) : list str :=
  match p with
  | Gap _ => []
  | Hit w cs =>
      match ngroups r with
      | 0 => [w]
      | _ => [match group 1 cs with Some g => g | None => [] end]
      end
  end.

Definition re_findall (ic : bool) (r : regex) (s : str) : list str :=
  flat_map (findall_item r) (scan ic r None None s).

(* ----------------------------------------------------------------- *)
(** *** What a pattern matches

    The relation the matcher is checked against: [Matches ic r prev w after
    cs cs'] says that [r] matches the text [w], standing between the
    character [prev] and the text [after], and turns the groups [cs] into
    [cs']. *)

(** The character before the position reached after reading [w]. *)
Fixpoint lastc (prev : option ascii) (w : str) : option ascii :=
  match w with
  | [] => prev
  | c :: w' => lastc (Some c) w'
  end.

Inductive Matches (ic : bool)
    : regex -> option ascii -> str -> str -> caps -> caps -> Prop :=
| M_Eps : forall p a cs, Matches ic Eps p [] a cs cs
| M_Chr : forall c x p a cs,
    cset_mem ic c x = true -> Matches ic (Chr c) p [x] a cs cs
| M_Bnd : forall p a cs,
    at_boundary p a = true -> Matches ic Bnd p [] a cs cs
| M_Rep : forall g min c p w a cs,
    forallb (cset_mem ic c) w = true -> min <= length w ->
    Matches ic (Rep g min c) p w a cs cs
| M_Cat : forall r1 r2 p w1 w2 a cs cs1 cs2,
    Matches ic r1 p w1 (w2 ++ a) cs cs1 ->
    Matches ic r2 (lastc p w1) w2 a cs1 cs2 ->
    Matches ic (Cat r1 r2) p (w1 ++ w2) a cs cs2
| M_AltL : forall r1 r2 p w a cs cs1,
    Matches ic r1 p w a cs cs1 -> Matches ic (Alt r1 r2) p w a cs cs1
| M_AltR : forall r1 r2 p w a cs cs1,
    Matches ic r2 p w a cs cs1 -> Matches ic (Alt r1 r2) p w a cs cs1
| M_Grp : forall i r p w a cs cs1,
    Matches ic r p w a cs cs1 ->
    Matches ic (Grp i r) p w a cs ((i, w) :: cs1).

(** [r] matches in [s] at offset [length pre], with text [w]. *)
Definition MatchAt (ic : bool) (r : regex) (pre w post : str) : Prop :=
  exists cs, Matches ic r (lastc None pre) w post [] cs.

(** [r] matches somewhere in [s]. *)
Definition MatchIn (ic : bool) (r : regex) (s : str) : Prop :=
  exists pre w post, s = pre ++ w ++ post /\ MatchAt ic r pre w post.

(** No match of [r] starts in [s] before offset [n], the text before [s]
    ending with [prev]. *)
Definition NoMatchBefore (ic : bool) (r : regex) (prev : option ascii)
    (s : str) (n : nat) : Prop :=
  forall pre w post cs0 cs1,
    s = pre ++ w ++ post -> length pre < n ->
    ~ Matches ic r (lastc prev pre) w post cs0 cs1.

(* ----------------------------------------------------------------- *)
(** *** Replacement templates of [re.sub]

    A replacement text is parsed once, before any match is looked for
    (CPython 3.11, [re._parser.parse_template]): a backslash introduces a
    group reference, an octal or a control escape; [None] stands for the
    exception the parser raises ([re.error], or [IndexError] for a group
    name). *)

Inductive titem : Type :=
| TLit (c : ascii)
| TRef (i : nat).

Definition is_digit (c : ascii) : bool := in_range 48 57 c.
Definition is_octal (c : ascii) : bool := in_range 48 55 c.
Definition is_ascii_letter (c : ascii) : bool :=
  in_range 65 90 c || in_range 97 122 c.
Definition digit_val (c : ascii) : nat := N.to_nat (code c) - 48.
Definition chr (n : nat) : ascii := ascii_of_nat n.

Definition backslash : ascii := chr 92.

(** Digits with single underscores between them, as [int] reads them;
    [acc] is the value so far and [after_digit] tells whether an underscore
    may come next. *)
Fixpoint int_digits (acc : nat) (after_digit : bool) (s : str) : option nat :=
  match s with
  | [] => if after_digit then Some acc else None
  | c :: s' =>
      if is_digit c then int_digits (10 * acc + digit_val c) true s'
      else if Ascii.eqb c (chr 95) && after_digit then
        match s' with
        | d :: _ => if is_digit d then int_digits acc false s' else None
        | [] => None
        end
      else None
  end.

(** [int(name)] where the result must not be negative. *)
Definition int_nonneg (name : str) : option nat :=
  match strip name with
  | c :: s' =>
      if Ascii.eqb c (chr 43) then int_digits 0 false s'
      else if Ascii.eqb c (chr 45) then
        match int_digits 0 false s' with
        | Some 0 => Some 0
        | _ => None
        end
      else int_digits 0 false (c :: s')
  | [] => None
  end.

Definition escape_char (c : ascii) : option ascii :=
  if Ascii.eqb c "a" then Some (chr 7)
  else if Ascii.eqb c "b" then Some (chr 8)
  else if Ascii.eqb c "f" then Some (chr 12)
  else if Ascii.eqb c "n" then Some (chr 10)
  else if Ascii.eqb c "r" then Some (chr 13)
  else if Ascii.eqb c "t" then Some (chr 9)
  else if Ascii.eqb c "v" then Some (chr 11)
  else if Ascii.eqb c backslash then Some backslash
  else None.

Definition tcons (x : titem) (r : option (list titem)) : option (list titem) :=
  option_map (cons x) r.

Definition tref (groups i : nat) (r : option (list titem))
    : option (list titem) :=
  if Nat.leb i groups then tcons (TRef i) r else None.

(** [name = None]: ordinary text; [name = Some acc]: inside [\g<...>],
    [acc] being the name read so far, in reverse. *)
Fixpoint parse_tmpl (groups : nat) (name : option str) (s : str)
    {struct s} : option (list titem) :=
  match name with
  | Some acc =>
      match s with
      | [] => None
      | c :: s' =>
          if Ascii.eqb c ">" then
            match int_nonneg (rev acc) with
            | Some i =>
                if existsb (Ascii.eqb backslash) acc then None
                else tref groups i (parse_tmpl groups None s')
            | None => None
            end
          else parse_tmpl groups (Some (c :: acc)) s'
      end
  | None =>
      match s with
      | [] => Some []
      | c :: s' =>
          if negb (Ascii.eqb c backslash) then
            tcons (TLit c) (parse_tmpl groups None s')
          else
            match s' with
            | [] => None
            | e :: s2 =>
                if Ascii.eqb e "g" then
                  match s2 with
                  | lt :: s3 =>
                      if Ascii.eqb lt "<" then parse_tmpl groups (Some []) s3
                      else None
                  | [] => None
                  end
                else if Ascii.eqb e "0" then
                  match s2 with
                  | d1 :: s3 =>
                      if is_octal d1 then
                        match s3 with
                        | d2 :: s4 =>
                            if is_octal d2 then
                              tcons (TLit (chr ((8 * digit_val d1
                                                  + digit_val d2) mod 256)))
                                (parse_tmpl groups None s4)
                            else tcons (TLit (chr (digit_val d1)))
                                   (parse_tmpl groups None s3)
                        | [] => tcons (TLit (chr (digit_val d1)))
                                  (parse_tmpl groups None s3)
                        end
                      else tcons (TLit (chr 0)) (parse_tmpl groups None s2)
                  | [] => tcons (TLit (chr 0)) (parse_tmpl groups None s2)
                  end
                else if is_digit e then
                  match s2 with
                  | d1 :: s3 =>
                      if is_digit d1 then
                        match s3 with
                        | d2 :: s4 =>
                            if is_octal e && is_octal d1 && is_octal d2 then
                              let v := 64 * digit_val e + 8 * digit_val d1
                                       + digit_val d2 in
                              if Nat.ltb 255 v then None
                              else tcons (TLit (chr v))
                                     (parse_tmpl groups None s4)
                            else tref groups (10 * digit_val e + digit_val d1)
                                   (parse_tmpl groups None s3)
                        | [] => tref groups (10 * digit_val e + digit_val d1)
                                  (parse_tmpl groups None s3)
                        end
                      else tref groups (digit_val e)
                             (parse_tmpl groups None s2)
                  | [] => tref groups (digit_val e) (parse_tmpl groups None s2)
                  end
                else
                  match escape_char e with
                  | Some x => tcons (TLit x) (parse_tmpl groups None s2)
                  | None =>
                      if is_ascii_letter e then None
                      else tcons (TLit backslash)
                             (tcons (TLit e) (parse_tmpl groups None s2))
                  end
            end
      end
  end.

Definition parse_template (groups : nat) (template : str)
    : option (list titem) :=
  parse_tmpl groups None template.

(** [match.expand]: a group that did not take part gives the empty text. *)
Definition expand_item (w : str) (cs : caps) (x : titem) : str :=
  match x with
  | TLit c => [c]
  | TRef 0 => w
  | TRef i => match group i cs with Some g => g | None => [] end
  end.

Definition expand (t : list titem) (w : str) (cs : caps) : str :=
  flat_map (expand_item w cs) t.

Definition sub_piece (t : list titem) (p : piece) : str :=
  match p with
  | Gap c => [c]
  | Hit w cs => expand t w cs
  end.

(** [re.sub(r, template, s)]; [None] when the template is refused. *)
Definition re_sub (ic : bool) (r : regex) (template : str) (s : str)
    : option str :=
  match parse_template (ngroups r) template with
  | Some t => Some (flat_map (sub_piece t) (scan ic r None None s))
  | None => None
  end.

(* ================================================================= *)
(** ** Results, exceptions and the data classes *)

Inductive exn : Type :=
| ValueError (msg : str)
| ReError                    (* raised by [re.sub] on its template *)
| TimeoutExpired             (* [subprocess.TimeoutExpired] *)
| EnvError (msg : str).      (* raised by the operating system interface *)

(** [str(e)]; the message texts of [re.error] and [TimeoutExpired] are not
    modelled, no function below prints them. *)
Definition exn_str (e : exn) : str :=
  match e with
  | ValueError m => m
  | ReError => lit "re.error"
  | TimeoutExpired => lit "timed out"
  | EnvError m => m
  end.

Inductive result (A : Type) : Type :=
| Ok (a : A)
| Raise (e : exn).

Arguments Ok {A} a.
Arguments Raise {A} e.

Definition bind {A B : Type} (m : result A) (f : A -> result B) : result B :=
  match m with
  | Ok a => f a
  | Raise e => Raise e
  end.

Definition of_option {A : Type} (e : exn) (o : option A) : result A :=
  match o with Some a => Ok a | None => Raise e end.

(** The dictionary [metadata] of [parse_hdl_code], one field per key. *)
Record Metadata : Type := mkMetadata {
  original_entity_name : option str;
  lines_of_code : nat;
  has_testbench : bool;
  libraries_used : list str;
  signals_count : nat;
  processes_count : nat
}.

Record HDLCode : Type := mkHDLCode {
  content : str;
  language : str;
  entity_name : str;
  file_extension : str;
  metadata : option Metadata
}.

Definition vhdl : str := lit "vhdl".
Definition verilog : str := lit "verilog".
Definition systemverilog : str := lit "systemverilog".

(* ================================================================= *)
(** ** Code extraction, normalisation and identifier rewriting *)

Definition sp1 : regex := Rep true 1 CSpace.     (* \s+ *)
Definition w1 : regex := Rep true 1 CWord.       (* \w+ *)

(** [```(vhdl|verilog|systemverilog)\s*\n(.*?)\n```] *)
Definition fence_re : regex :=
  seq [ word (lit "```");
        Grp 1 (Alt (word vhdl) (Alt (word verilog) (word systemverilog)));
        Rep true 0 CSpace;
        Chr (CChar newline);
        Grp 2 (Rep false 0 CAny);
        Chr (CChar newline);
        word (lit "```") ].




(** [match.group(i)] for a group that took part in the match. *)
Definition m_group (i : nat) (m : found) : str :=
  match i with
  | 0 => m_text m
  | _ => match group i (m_groups m) with Some g => g | None => [] end
  end.

Definition any_in (keywords : list str) (s : str) : bool :=
  existsb (fun keyword => contains keyword s) keywords.

Definition _extract_code_and_language (content : str) : str * str :=
  match re_search true fence_re content with
  | Some m =>
      let language := lower (m_group 1 m) in
      let code := strip (m_group 2 m) in
      let language :=
        if str_eqb language verilog || str_eqb language systemverilog
        then verilog else language in
      (language, code)
  | None =>
      let content_lower := lower content in
      if any_in [lit "entity"; lit "architecture"; lit "library ieee"]
           content_lower
      then (vhdl, strip content)
      else if any_in [lit "module"; lit "endmodule"; lit "always"; lit "wire"]
                content_lower
      then (verilog, strip content)
      else (vhdl, strip content)
  end.

Definition blank (line : str) : bool :=
  match strip line with [] => true | _ => false end.

Fixpoint drop_blank (lines : list str) : list str :=
  match lines with
  | l :: ls => if blank l then drop_blank ls else lines
  | [] => []
  end.

Definition _clean_code (code : str) : str :=
  let lines := map rstrip (split_on newline code) in
  let lines := drop_blank lines in
  let lines := rev (drop_blank (rev lines)) in
  join [newline] lines.

(** [\bentity\s+\w+\s+is] *)
Definition entity_re : regex :=
  seq [Bnd; word (lit "entity"); sp1; w1; sp1; word (lit "is")].

(** [\barchitecture\s+\w+\s+of\s+\w+\s+is] *)
Definition architecture_re : regex :=
  seq [Bnd; word (lit "architecture"); sp1; w1; sp1; word (lit "of");
       sp1; w1; sp1; word (lit "is")].

(** [\bmodule\s+\w+] *)
Definition module_re : regex :=
  seq [Bnd; word (lit "module"); sp1; w1].

(** [\bendmodule\b] *)
Definition endmodule_re : regex :=
  seq [Bnd; word (lit "endmodule"); Bnd].

Definition found_any (o : option found) : bool :=
  match o with Some _ => true | None => false end.

Definition _validate_basic_syntax (code language : str) : result unit :=
  if str_eqb language vhdl then
    if negb (found_any (re_search true entity_re code)) then
      Raise (ValueError (lit "VHDL code must contain an entity declaration"))
    else if negb (found_any (re_search true architecture_re code)) then
      Raise (ValueError
               (lit "VHDL code must contain an architecture declaration"))
    else Ok tt
  else if str_eqb language verilog then
    if negb (found_any (re_search true module_re code)) then
      Raise (ValueError (lit "Verilog code must contain a module declaration"))
    else if negb (found_any (re_search true endmodule_re code)) then
      Raise (ValueError
               (lit "Verilog code must contain an endmodule statement"))
    else Ok tt
  else Ok tt.

(** [\bentity\s+(\w+)\s+is] *)
Definition entity_name_re : regex :=
  seq [Bnd; word (lit "entity"); sp1; Grp 1 w1; sp1; word (lit "is")].

(** [\bmodule\s+(\w+)] *)
Definition module_name_re : regex :=
  seq [Bnd; word (lit "module"); sp1; Grp 1 w1].

Definition _extract_entity_name (code language : str) : option str :=
  if str_eqb language vhdl then
    option_map (m_group 1) (re_search true entity_name_re code)
  else if str_eqb language verilog then
    option_map (m_group 1) (re_search true module_name_re code)
  else None.

(** [\bentity\s+<old>\s+is], the name escaped *)
Definition entity_of_re (old_name : str) : regex :=
  seq [Bnd; word (lit "entity"); sp1; word old_name; sp1; word (lit "is")].

(** [\barchitecture\s+(\w+)\s+of\s+<old>\s+is] *)
Definition architecture_of_re (old_name : str) : regex :=
  seq [Bnd; word (lit "architecture"); sp1; Grp 1 w1; sp1; word (lit "of");
       sp1; word old_name; sp1; word (lit "is")].

(** [\bmodule\s+<old>\b] *)
Definition module_of_re (old_name : str) : regex :=
  seq [Bnd; word (lit "module"); sp1; word old_name; Bnd].

Definition _replace_entity_name (code old_name new_name language : str)
    : result str :=
  if str_eqb language vhdl then
    bind (of_option ReError
            (re_sub true (entity_of_re old_name)
               (lit "entity " ++ new_name ++ lit " is") code))
      (fun code =>
         of_option ReError
           (re_sub true (architecture_of_re old_name)
              (lit "architecture \1 of " ++ new_name ++ lit " is") code))
  else if str_eqb language verilog then
    of_option ReError
      (re_sub true (module_of_re old_name) (lit "module " ++ new_name) code)
  else Ok code.

(* ================================================================= *)
(** ** Metadata *)

Definition _detect_testbench (code language : str) : bool :=
  let code_lower := lower code in
  if str_eqb language vhdl then
    any_in [lit "testbench"; lit "tb_"; lit "_tb"; lit "test_"] code_lower
  else if str_eqb language verilog then
    any_in [lit "testbench"; lit "tb_"; lit "_tb"; lit "initial";
            lit "$monitor"] code_lower
  else false.

Definition str_eq_dec : forall a b : str, {a = b} + {a <> b} :=
  list_eq_dec ascii_dec.

Definition dot : ascii := ".".
Definition dquote : ascii := chr 34.

(** [list(set(libraries))]; the order Python lists a set in is not fixed,
    here each name stays at its last place. *)
Definition _extract_libraries (code language : str) : list str :=
  let libraries :=
    if str_eqb language vhdl then
      let lib_matches :=
        re_findall true
          (seq [Bnd; word (lit "library"); sp1; Grp 1 w1]) code in
      let use_matches :=
        re_findall true
          (seq [Bnd; word (lit "use"); sp1;
                Grp 1 (Rep true 1 (CUnion CWord (CChar dot)))]) code in
      lib_matches ++ map (fun use => hd [] (split_on dot use)) use_matches
    else if str_eqb language verilog then
      re_findall false
        (seq [word (lit "`include"); sp1; Chr (CChar dquote);
              Grp 1 (Rep true 1 (CNot (CChar dquote)));
              Chr (CChar dquote)]) code
    else [] in
  nodup str_eq_dec libraries.

Definition _count_signals (code language : str) : nat :=
  if str_eqb language vhdl then
    length (re_findall true (seq [Bnd; word (lit "signal"); sp1; w1]) code)
  else if str_eqb language verilog then
    let wires := re_findall true (seq [Bnd; word (lit "wire"); sp1]) code in
    let regs := re_findall true (seq [Bnd; word (lit "reg"); sp1]) code in
    length wires + length regs
  else 0.

Definition _count_processes (code language : str) : nat :=
  if str_eqb language vhdl then
    length (re_findall true (seq [Bnd; word (lit "process"); Bnd]) code)
  else if str_eqb language verilog then
    length (re_findall true (seq [Bnd; word (lit "always"); Bnd]) code)
  else 0.

(** Truth value of a text. *)
Definition nonempty (s : str) : bool :=
  match s with [] => false | _ => true end.

Definition parse_hdl_code (ai_response_content circuit_name : str)
    : result HDLCode :=
  let (language, code) := _extract_code_and_language ai_response_content in
  let code := _clean_code code in
  bind (_validate_basic_syntax code language) (fun _ =>
  let original_name := _extract_entity_name code language in
  bind (match original_name with
        | Some name =>
            if nonempty name && negb (str_eqb name circuit_name)
            then _replace_entity_name code name circuit_name language
            else Ok code
        | None => Ok code
        end) (fun code =>
  let file_extension := if str_eqb language vhdl then lit "vhdl" else lit "v" in
  let metadata := {|
    original_entity_name := original_name;
    lines_of_code := length (split_on newline code);
    has_testbench := _detect_testbench code language;
    libraries_used := _extract_libraries code language;
    signals_count := _count_signals code language;
    processes_count := _count_processes code language |} in
  Ok {| content := code;
        language := language;
        entity_name := circuit_name;
        file_extension := file_extension;
        metadata := Some metadata |})).

(* ================================================================= *)
(** ** The world outside: files, external tools, the clock *)

Record CompilationResult : Type := mkCompilationResult {
  success : bool;
  cr_entity_name : str;
  cr_language : str;
  build_files : list str;
  error_message : option str;
  warnings : option (list str);
  compilation_time : Z
}.


(** What a path names: a regular file with its text, a directory, or a ZIP
    archive with its members (name and data) in the order written. *)
Inductive fsnode : Type :=
| File (data : str)
| Dir
| Archive (members : list (str * str)).

Inductive io_op : Type := Create | Read | Listing.

Record World : Type := mkWorld {
  node : str -> option fsnode;
  deny : io_op -> str -> option exn;   (* operations the system refuses *)
  entries : str -> list str;           (* the names in a directory *)
  zip_bytes : list (str * str) -> str; (* an archive as stored on disk *)
  clock : Z
}.

Definition set_node (p : str) (n : fsnode) (w : World) : World :=
  {| node := fun q => if str_eqb q p then Some n else node w q;
     deny := deny w; entries := entries w; zip_bytes := zip_bytes w;
     clock := clock w |}.

(** Computations that read and change the world and may raise. *)
Definition M (A : Type) : Type := World -> result A * World.

Definition ret {A : Type} (a : A) : M A := fun w => (Ok a, w).

Definition raise {A : Type} (e : exn) : M A := fun w => (Raise e, w).

Definition mbind {A B : Type} (m : M A) (f : A -> M B) : M B :=
  fun w => match m w with
           | (Ok a, w') => f a w'
           | (Raise e, w') => (Raise e, w')
           end.

(** [try: m  except Exception as e: handler e]. *)
Definition try_except {A : Type} (m : M A) (handler : exn -> M A) : M A :=
  fun w => match m w with
           | (Ok a, w') => (Ok a, w')
           | (Raise e, w') => handler e w'
           end.

Notation "x <- m ;; k" := (mbind m (fun x => k))
  (at level 61, m at next level, right associativity).
Notation "m ;;; k" := (mbind m (fun _ => k))
  (at level 61, right associativity).


(** [time.time()]. *)
Definition time : M Z := fun w => (Ok (clock w), w).

Definition slash : ascii := "/".

(** [os.path.join(a, b)]. *)
Definition path_join (a b : str) : str :=
  if startswith [slash] b then b
  else match rev a with
       | [] => b
       | c :: _ => if Ascii.eqb c slash then a ++ b else a ++ slash :: b
       end.


(** [os.makedirs(d, exist_ok=True)]. *)
Definition makedirs (d : str) : M unit := fun w =>
  match deny w Create d with
  | Some e => (Raise e, w)
  | None =>
      match node w d with
      | Some Dir => (Ok tt, w)
      | Some _ => (Raise (EnvError (lit "File exists")), w)
      | None => (Ok tt, set_node d Dir w)
      end
  end.

(** [with open(p, 'w') as f: f.write(data)]. *)
Definition write_file (p data : str) : M unit := fun w =>
  match deny w Create p with
  | Some e => (Raise e, w)
  | None =>
      match node w p with
      | Some Dir => (Raise (EnvError (lit "Is a directory")), w)
      | _ => (Ok tt, set_node p (File data) w)
      end
  end.


Definition isfile (w : World) (p : str) : bool :=
  match node w p with
  | Some (File _) | Some (Archive _) => true
  | _ => false
  end.

(** [os.listdir(d)]. *)
Definition listdir (d : str) : M (list str) := fun w =>
  match deny w Listing d with
  | Some e => (Raise e, w)
  | None =>
      match node w d with
      | Some Dir => (Ok (entries w d), w)
      | _ => (Raise (EnvError (lit "Not a directory")), w)
      end
  end.

(** What an external command did: it ended with a return code and a text
    on standard error, it was still running when the timeout expired, or it
    could not be started. *)
Inductive outcome : Type :=
| Completed (returncode : Z) (stderr : str)
| TimedOut
| NotStarted (msg : str).

(** [subprocess.run]: the command line and the timeout in, the outcome and
    the world the tool leaves out. *)
Definition subprocess : Type := list str -> nat -> World -> outcome * World.

Definition run_cmd (run : subprocess) (cmd : list str) (timeout : nat)
    : M (Z * str) := fun w =>
  match run cmd timeout w with
  | (Completed rc err, w') => (Ok (rc, err), w')
  | (TimedOut, w') => (Raise TimeoutExpired, w')
  | (NotStarted msg, w') => (Raise (EnvError msg), w')
  end.

(* ================================================================= *)
(** ** Compilation *)

Record HDLProcessor : Type := mkHDLProcessor {
  ghdl_path : str;
  iverilog_path : str;
  work_directory : str;
  timeout : nat;
  additional_flags : list (str * list str)
}.

(** [d.get(key, [])]. *)
Fixpoint get_flags (d : list (str * list str)) (key : str) : list str :=
  match d with
  | [] => []
  | (k, v) :: d' => if str_eqb k key then v else get_flags d' key
  end.

Definition failed (entity_name language : str) (msg : str)
    : CompilationResult :=
  {| success := false; cr_entity_name := entity_name;
     cr_language := language; build_files := [];
     error_message := Some msg; warnings := None; compilation_time := 0 |}.

Definition timeout_message (self : HDLProcessor) : str :=
  lit "Compilation timeout after " ++ str_of_nat (timeout self)
  ++ lit " seconds".

(** The handlers shared by [_compile_vhdl] and [_compile_verilog]. *)
Definition compile_handlers (self : HDLProcessor)
    (entity_name language : str) (e : exn) : M CompilationResult :=
  match e with
  | TimeoutExpired => ret (failed entity_name language (timeout_message self))
  | _ => ret (failed entity_name language (exn_str e))
  end.

(** The regular files of the build directory. *)
Definition collect (build_dir : str) : M (list str) :=
  files <- listdir build_dir ;;
  fun w =>
    (Ok (filter (isfile w) (map (path_join build_dir) files)), w).

Definition note (stderr : str) (warnings : list str) : list str :=
  if nonempty stderr then warnings ++ [stderr] else warnings.

Definition analyze_cmd (self : HDLProcessor) (hdl_file build_dir : str)
    : list str :=
  [ghdl_path self; lit "-a"; lit "--workdir=" ++ build_dir]
  ++ get_flags (additional_flags self) vhdl ++ [hdl_file].

Definition elaborate_cmd (self : HDLProcessor) (entity_name build_dir : str)
    : list str :=
  [ghdl_path self; lit "-e"; lit "--workdir=" ++ build_dir; entity_name].

Definition compile_cmd (self : HDLProcessor)
    (entity_name hdl_file build_dir : str) : list str :=
  let output_file := path_join build_dir (entity_name ++ lit ".out") in
  [iverilog_path self; lit "-o"; output_file]
  ++ get_flags (additional_flags self) verilog ++ [hdl_file].

Definition _compile_vhdl (self : HDLProcessor) (run : subprocess)
    (entity_name hdl_file build_dir : str) : M CompilationResult :=
  try_except
    (r <- run_cmd run (analyze_cmd self hdl_file build_dir) (timeout self) ;;
     if negb (Z.eqb (fst r) 0) then ret (failed entity_name vhdl (snd r))
     else
       let warnings := note (snd r) [] in
       r <- run_cmd run (elaborate_cmd self entity_name build_dir)
              (timeout self) ;;
       if negb (Z.eqb (fst r) 0) then ret (failed entity_name vhdl (snd r))
       else
         let warnings := note (snd r) warnings in
         build_files <- collect build_dir ;;
         ret {| success := true; cr_entity_name := entity_name;
                cr_language := vhdl; build_files := build_files;
                error_message := None; warnings := Some warnings;
                compilation_time := 0 |})
    (compile_handlers self entity_name vhdl).

Definition _compile_verilog (self : HDLProcessor) (run : subprocess)
    (entity_name hdl_file build_dir : str) : M CompilationResult :=
  try_except
    (r <- run_cmd run (compile_cmd self entity_name hdl_file build_dir)
            (timeout self) ;;
     if negb (Z.eqb (fst r) 0) then ret (failed entity_name verilog (snd r))
     else
       let warnings := note (snd r) [] in
       build_files <- collect build_dir ;;
       ret {| success := true; cr_entity_name := entity_name;
              cr_language := verilog; build_files := build_files;
              error_message := None; warnings := Some warnings;
              compilation_time := 0 |})
    (compile_handlers self entity_name verilog).

Definition set_time (t : Z) (r : CompilationResult) : CompilationResult :=
  {| success := success r; cr_entity_name := cr_entity_name r;
     cr_language := cr_language r; build_files := build_files r;
     error_message := error_message r; warnings := warnings r;
     compilation_time := t |}.

Definition source_name (hdl_code : HDLCode) : str :=
  entity_name hdl_code ++ lit "." ++ file_extension hdl_code.

(** The build directory of a session and the source file in it. *)
Definition build_dir_of (self : HDLProcessor) (session_id : str) : str :=
  path_join (work_directory self) session_id.

Definition hdl_file_of (self : HDLProcessor) (hdl_code : HDLCode)
    (session_id : str) : str :=
  path_join (build_dir_of self session_id) (source_name hdl_code).

Definition compile_hdl (self : HDLProcessor) (run : subprocess)
    (hdl_code : HDLCode) (session_id : str) : M CompilationResult :=
  start_time <- time ;;
  let build_dir := build_dir_of self session_id in
  makedirs build_dir ;;;
  let hdl_file := hdl_file_of self hdl_code session_id in
  write_file hdl_file (content hdl_code) ;;;
  try_except
    (result <-
       (if str_eqb (language hdl_code) vhdl then
          _compile_vhdl self run (entity_name hdl_code) hdl_file build_dir
        else if str_eqb (language hdl_code) verilog then
          _compile_verilog self run (entity_name hdl_code) hdl_file build_dir
        else
          raise (ValueError (lit "Unsupported HDL language: "
                             ++ language hdl_code))) ;;
     now <- time ;;
     ret (set_time (now - start_time) result))
    (fun e =>
       now <- time ;;
       ret (set_time (now - start_time)
              (failed (entity_name hdl_code) (language hdl_code)
                 (exn_str e)))).

(* ================================================================= *)
(** ** Export *)






























(* ================================================================= *)
(** ** Vocabulary of the specification *)

(** Equal up to case. *)
Definition ci (w u : str) : Prop := lower w = lower u.

(** A non-empty run of white space; a non-empty run of word characters. *)
Definition spaces1 (w : str) : Prop := w <> [] /\ forallb isspace w = true.
Definition word1 (w : str) : Prop := w <> [] /\ forallb isword w = true.

(** The text [w] reads [entity n is], the name being [n] as written. *)
Definition entity_named (n w : str) : Prop :=
  exists e s1 s2 i,
    w = e ++ s1 ++ n ++ s2 ++ i /\ ci e (lit "entity") /\ spaces1 s1
    /\ spaces1 s2 /\ ci i (lit "is").

(** The text [w] reads [architecture id of n is]. *)
Definition architecture_named (id n w : str) : Prop :=
  exists a s1 s2 o s3 s4 i,
    w = a ++ s1 ++ id ++ s2 ++ o ++ s3 ++ n ++ s4 ++ i
    /\ ci a (lit "architecture") /\ spaces1 s1 /\ word1 id /\ spaces1 s2
    /\ ci o (lit "of") /\ spaces1 s3 /\ spaces1 s4 /\ ci i (lit "is").

(** The text [w] reads [module n]. *)
Definition module_named (n w : str) : Prop :=
  exists m s1, w = m ++ s1 ++ n /\ ci m (lit "module") /\ spaces1 s1.

(** The same, the name being [name] up to case. *)
Definition entity_text (name w : str) : Prop :=
  exists n, ci n name /\ entity_named n w.

Definition architecture_text (name w : str) : Prop :=
  exists id n, ci n name /\ architecture_named id n w.

Definition module_text (name w : str) : Prop :=
  exists n, ci n name /\ module_named n w.

(** A clause of the given kind stands in [s], starting at a word boundary:
    [s = pre ++ w ++ post] where [w] is the clause. *)
Definition Site (P : str -> str -> Prop) (s : str) : Prop :=
  exists pre w post,
    s = pre ++ w ++ post /\ wordish (lastc None pre) = false /\ P w post.

(** [entity <name> is] for some name. *)
Definition entity_clause (w post : str) : Prop :=
  exists n, word1 n /\ entity_named n w.


(** [module <name>] for some name. *)
Definition module_clause (w post : str) : Prop :=
  exists n, word1 n /\ module_named n w.











(* ----------------------------------------------------------------- *)
(** *** Rewriting, in words *)

(** What [re.sub] does with the clauses it finds, read from left to right:
    a character at which no clause starts is kept; a clause [w] standing at
    a word boundary is replaced by a text [rep] that [Out] relates to it,
    and the scan goes on after the clause. *)
Inductive Rw (Cl : str -> Prop) (Out : str -> str -> Prop)
    : option ascii -> str -> str -> Prop :=
| Rw_nil : forall prev, Rw Cl Out prev [] []
| Rw_gap : forall prev c s out,
    (forall w post, c :: s = w ++ post -> Cl w -> wordish prev = true) ->
    Rw Cl Out (Some c) s out ->
    Rw Cl Out prev (c :: s) (c :: out)
| Rw_hit : forall prev w post rep out,
    Cl w -> wordish prev = false -> Out w rep ->
    Rw Cl Out (lastc prev w) post out ->
    Rw Cl Out prev (w ++ post) (rep ++ out).

(** The output of [re.sub] for a parsed template, the text before [s]
    ending with [prev]. *)
Definition sub_out (ic : bool) (r : regex) (t : list titem)
    (prev : option ascii) (s : str) : str :=
  flat_map (sub_piece t) (scan ic r None prev s).

(** Every clause that starts in [a] ends in [a]. *)
Definition Clear (Cl : str -> Prop) (prev : option ascii) (a b : str) : Prop :=
  forall pre w post,
    a ++ b = pre ++ w ++ post -> Cl w -> wordish (lastc prev pre) = false ->
    length pre < length a -> length pre + length w <= length a.

(** No clause of [a ++ t ++ b] shares a character with [t]. *)
Definition Apart (Cl : str -> Prop) (prev : option ascii) (a t b : str) : Prop :=
  forall pre w post,
    a ++ t ++ b = pre ++ w ++ post -> Cl w ->
    wordish (lastc prev pre) = false ->
    length pre + length w <= length a \/ length a + length t <= length pre.

(** Words separated by white space: [phrase u [(s1, v1); (s2, v2)]] is
    [u ++ s1 ++ v1 ++ s2 ++ v2]. *)
Fixpoint phrase (u : str) (rest : list (str * str)) : str :=
  match rest with
  | [] => u
  | (s, v) :: rest' => u ++ s ++ phrase v rest'
  end.

Fixpoint Phrase (u : str) (rest : list (str * str)) : Prop :=
  word1 u /\
  match rest with
  | [] => True
  | (s, v) :: rest' => spaces1 s /\ Phrase v rest'
  end.

(** The phrases that start at a word of a phrase. *)
Fixpoint tails (u : str) (rest : list (str * str))
    : list (str * list (str * str)) :=
  (u, rest) ::
  match rest with
  | [] => []
  | (s, v) :: rest' => tails v rest'
  end.

(** The text [a] does not go on with a character of the class [f]. *)
Definition stops (f : ascii -> bool) (a : str) : Prop :=
  match a with
  | [] => True
  | c :: _ => f c = false
  end.

(** A name that can stand in a declaration: an identifier that is not one
    of the words [entity], [architecture] and [of]. *)
Definition plain_name (n : str) : Prop :=
  word1 n /\ ~ ci n (lit "entity") /\ ~ ci n (lit "architecture")
  /\ ~ ci n (lit "of").

(** What the two substitutions of [_replace_entity_name] put in the place
    of a clause. *)
Definition entity_out (new_name : str) (w rep : str) : Prop :=
  rep = lit "entity " ++ new_name ++ lit " is".

Definition architecture_out (old_name new_name : str) (w rep : str) : Prop :=
  exists id n,
    ci n old_name /\ architecture_named id n w
    /\ rep = lit "architecture " ++ id ++ lit " of " ++ new_name ++ lit " is".

(** The number of places of [s] at which the text [x] stands. *)
Fixpoint occurrences (x s : str) : nat :=
  match s with
  | [] => 0
  | _ :: s' => (if startswith x s then 1 else 0) + occurrences x s'
  end.

(** No occurrence of [x] starts in [u] and ends in [v]. *)
Definition NoStraddle (x u v : str) : Prop :=
  forall u0 x1 x2 v0,
    u = u0 ++ x1 -> v = x2 ++ v0 -> x = x1 ++ x2 -> x1 = [] \/ x2 = [].

(* ----------------------------------------------------------------- *)
(** *** Sentences of the specification that the code does not satisfy,
        as they are written *)

(** Testbench detection: the four common markers, and two more for
    Verilog. *)
Definition spec_testbench (code language : str) : Prop :=
  _detect_testbench code language = true <->
  exists k,
    In k ([lit "testbench"; lit "tb_"; lit "_tb"; lit "test_"]
          ++ (if str_eqb language verilog
              then [lit "initial"; lit "$monitor"] else []))
    /\ Occurs k (lower code).




(** Compilation never raises, whatever the code, session and world. *)
Definition spec_compile_never_raises : Prop :=
  forall self run hdl_code session_id w,
  exists r w', compile_hdl self run hdl_code session_id w = (Ok r, w').

(* ----------------------------------------------------------------- *)
(** *** Compilation and export, in words *)

(** The build directory was made and the source file written in it,
    which leaves the world [w2]. *)
Definition Written (self : HDLProcessor) (hdl_code : HDLCode)
    (session_id : str) (w w2 : World) : Prop :=
  exists w1,
    makedirs (build_dir_of self session_id) w = (Ok tt, w1)
    /\ write_file (hdl_file_of self hdl_code session_id) (content hdl_code) w1
       = (Ok tt, w2).

(** One of the compiler invocations made for [hdl_code], starting in the
    world [w2], is still running when the timeout expires. *)
Definition TimesOut (self : HDLProcessor) (run : subprocess)
    (hdl_code : HDLCode) (session_id : str) (w2 : World) : Prop :=
  let build_dir := build_dir_of self session_id in
  let hdl_file := hdl_file_of self hdl_code session_id in
  let analyze := analyze_cmd self hdl_file build_dir in
  let elaborate := elaborate_cmd self (entity_name hdl_code) build_dir in
  let compile := compile_cmd self (entity_name hdl_code) hdl_file build_dir in
  (language hdl_code = vhdl
   /\ (fst (run analyze (timeout self) w2) = TimedOut
       \/ exists err w3,
            run analyze (timeout self) w2 = (Completed 0 err, w3)
            /\ fst (run elaborate (timeout self) w3) = TimedOut))
  \/ (language hdl_code = verilog
      /\ fst (run compile (timeout self) w2) = TimedOut).







(* ----------------------------------------------------------------- *)
(** *** Examples *)

(** The processor as [__init__] configures it by default. *)
Definition default_processor : HDLProcessor :=
  {| ghdl_path := lit "ghdl"; iverilog_path := lit "iverilog";
     work_directory := lit "build"; timeout := 60;
     additional_flags := [(vhdl, [lit "-fsynopsys"]); (verilog, [])] |}.

(** A world without files where everything is allowed. *)
Definition empty_world : World :=
  {| node := fun _ => None; deny := fun _ _ => None;
     entries := fun _ => []; zip_bytes := fun _ => []; clock := 0 |}.

(** A world where nothing can be created. *)
Definition read_only_world : World :=
  {| node := fun _ => None;
     deny := fun op _ =>
               match op with
               | Create => Some (EnvError (lit "Permission denied"))
               | _ => None
               end;
     entries := fun _ => []; zip_bytes := fun _ => []; clock := 0 |}.

(** A compiler that never ends in time. *)
Definition hanging_tool : subprocess := fun _ _ w => (TimedOut, w).

Definition and_gate_response : str :=
  lit "Here is the code:" ++ newline :: lit "```vhdl" ++ newline ::
  lit "entity and_gate is" ++ newline ::
  lit "  port (a, b : in bit; y : out bit);" ++ newline ::
  lit "end and_gate;" ++ newline ::
  lit "architecture rtl of and_gate is" ++ newline ::
  lit "begin" ++ newline ::
  lit "  y <= a and b;" ++ newline ::
  lit "end rtl;" ++ newline :: lit "```".

(** What [parse_hdl_code and_gate_response "my_and"] returns. *)
Definition my_and : HDLCode :=
  {| content :=
       lit "entity my_and is" ++ newline ::
       lit "  port (a, b : in bit; y : out bit);" ++ newline ::
       lit "end and_gate;" ++ newline ::
       lit "architecture rtl of my_and is" ++ newline ::
       lit "begin" ++ newline ::
       lit "  y <= a and b;" ++ newline ::
       lit "end rtl;";
     language := vhdl;
     entity_name := lit "my_and";
     file_extension := lit "vhdl";
     metadata :=
       Some {| original_entity_name := Some (lit "and_gate");
               lines_of_code := 7;
               has_testbench := false;
               libraries_used := [];
               signals_count := 0;
               processes_count := 0 |} |}.







(** A VHDL source with the two declarations of [foo] and an identifier
    [foobar] in its body. *)
Definition foo_source : str :=
  lit "entity foo is end foo;" ++ newline ::
  lit "architecture arch of foo is" ++ newline ::
  lit "  signal foobar : bit;" ++ newline ::
  lit "begin end arch;".

(* ################################################################# *)
(** * Properties *)

(* ----------------------------------------------------------------- *)
(** *** Facts on texts *)




Lemma startswith_iff (p s : str) :
  startswith p s = true <-> exists b, s = p ++ b.
Proof.
  revert s; induction p as [|x p IH]; intros s; simpl.
  - split; [intros _; exists s; reflexivity | reflexivity].
  - destruct s as [|y s].
    + split; [discriminate | intros [b H]; discriminate].
    + rewrite andb_true_iff, Ascii.eqb_eq, IH. split.
      * intros [-> [b ->]]. exists b; reflexivity.
      * intros [b H]. inversion H; subst. split; [reflexivity | exists b; reflexivity].
Qed.

Lemma contains_iff (sub s : str) : contains sub s = true <-> Occurs sub s.
Proof.
  unfold Occurs. induction s as [|c s IH]; simpl.
  - rewrite orb_false_r, startswith_iff. split.
    + intros [b H]. exists [], b. exact H.
    + intros [a [b H]]. destruct a; simpl in H.
      * exists b; exact H.
      * discriminate.
  - rewrite orb_true_iff, startswith_iff, IH. split.
    + intros [[b H] | [a [b H]]].
      * exists [], b. exact H.
      * exists (c :: a), b. simpl. rewrite H. reflexivity.
    + intros [a [b H]]. destruct a as [|x a]; simpl in H.
      * left. exists b. exact H.
      * right. inversion H; subst. exists a, b. reflexivity.
Qed.

Lemma contains_false_iff (sub s : str) :
  contains sub s = false <-> ~ Occurs sub s.
Proof.
  rewrite <- contains_iff. destruct (contains sub s); split; congruence.
Qed.

Lemma any_in_iff (keywords : list str) (s : str) :
  any_in keywords s = true <-> exists k, In k keywords /\ Occurs k s.
Proof.
  unfold any_in. rewrite existsb_exists.
  split; intros [k [Hin H]]; exists k; split; auto; apply contains_iff; exact H.
Qed.

(* ----------------------------------------------------------------- *)
(** *** Characters *)

Ltac by_cases_on_char c :=
  destruct c as [[] [] [] [] [] [] [] []]; vm_compute; try reflexivity;
  try discriminate; auto.

Lemma space_not_word (c : ascii) : isspace c = true -> isword c = false.
Proof. by_cases_on_char c. Qed.

Lemma word_not_space (c : ascii) : isword c = true -> isspace c = false.
Proof. by_cases_on_char c. Qed.

Lemma lower_char_idem (c : ascii) : lower_char (lower_char c) = lower_char c.
Proof. by_cases_on_char c. Qed.

Lemma isword_lower (c : ascii) : isword (lower_char c) = isword c.
Proof. by_cases_on_char c. Qed.

Lemma isspace_lower (c : ascii) : isspace (lower_char c) = isspace c.
Proof. by_cases_on_char c. Qed.

Lemma lower_idem (s : str) : lower (lower s) = lower s.
Proof.
  unfold lower. rewrite map_map. apply map_ext. apply lower_char_idem.
Qed.

Lemma lower_app (a b : str) : lower (a ++ b) = lower a ++ lower b.
Proof. apply map_app. Qed.

Lemma lower_length (s : str) : length (lower s) = length s.
Proof. apply length_map. Qed.

(* ----------------------------------------------------------------- *)
(** *** The position reached *)

Lemma lastc_app (p : option ascii) (a b : str) :
  lastc p (a ++ b) = lastc (lastc p a) b.
Proof. revert p; induction a as [|x a IH]; intros p; simpl; auto. Qed.


Lemma lastc_cons_irrel (p q : option ascii) (c : ascii) (a : str) :
  lastc p (c :: a) = lastc q (c :: a).
Proof. reflexivity. Qed.

Lemma lastc_nonempty (p q : option ascii) (a : str) :
  a <> [] -> lastc p a = lastc q a.
Proof. destruct a; [congruence | reflexivity]. Qed.

(* ----------------------------------------------------------------- *)
(** *** The matcher finds what the pattern matches *)

Section MatcherFacts.

Variable ic : bool.
Variable A : Type.

Lemma rep_greedy_sound (p : ascii -> bool) (s : str) :
  forall min prev (k : option ascii -> str -> option A) a,
    rep_greedy p min prev s k = Some a ->
    exists w rest, s = w ++ rest /\ forallb p w = true /\ min <= length w
                   /\ k (lastc prev w) rest = Some a.
Proof.
  induction s as [|c s IH]; intros min prev k a H; simpl in H.
  - destruct min; [|discriminate]. exists [], []; simpl; auto.
  - destruct (p c) eqn:Hp.
    + destruct (rep_greedy p (pred min) (Some c) s k) eqn:Hr.
      * inversion H; subst a0. apply IH in Hr.
        destruct Hr as [w [rest [-> [Hw [Hm Hk]]]]].
        exists (c :: w), rest; simpl. rewrite Hp, Hw. repeat split; auto. lia.
      * destruct min; [|discriminate]. exists [], (c :: s); simpl; auto.
    + destruct min; [|discriminate]. exists [], (c :: s); simpl; auto.
Qed.

Lemma rep_greedy_complete (p : ascii -> bool) (w : str) :
  forall rest min prev (k : option ascii -> str -> option A),
    forallb p w = true -> min <= length w ->
    k (lastc prev w) rest <> None ->
    rep_greedy p min prev (w ++ rest) k <> None.
Proof.
  induction w as [|c w IH]; intros rest min prev k Hw Hm Hk; simpl in *.
  - assert (min = 0) by lia; subst min.
    destruct rest as [|c s]; simpl; auto.
    destruct (p c); auto.
    destruct (rep_greedy p 0 (Some c) s k); [discriminate | auto].
  - apply andb_true_iff in Hw. destruct Hw as [Hc Hw]. rewrite Hc.
    specialize (IH rest (pred min) (Some c) k Hw ltac:(lia) Hk).
    destruct (rep_greedy p (pred min) (Some c) (w ++ rest) k);
      [discriminate | contradiction].
Qed.

Lemma rep_lazy_sound (p : ascii -> bool) (s : str) :
  forall min prev (k : option ascii -> str -> option A) a,
    rep_lazy p min prev s k = Some a ->
    exists w rest, s = w ++ rest /\ forallb p w = true /\ min <= length w
                   /\ k (lastc prev w) rest = Some a.
Proof.
  induction s as [|c s IH]; intros min prev k a H; simpl in H.
  - destruct min; [|discriminate].
    destruct (k prev []) eqn:Hk; [|discriminate].
    inversion H; subst. exists [], []; simpl; auto.
  - assert (Hmore : (if p c then rep_lazy p (pred min) (Some c) s k else None)
                    = Some a ->
                    exists w rest, c :: s = w ++ rest /\ forallb p w = true
                      /\ min <= length w /\ k (lastc prev w) rest = Some a).
    { destruct (p c) eqn:Hp; [|discriminate]. intros Hr. apply IH in Hr.
      destruct Hr as [w [rest [-> [Hw [Hm Hk]]]]].
      exists (c :: w), rest; simpl. rewrite Hp, Hw. repeat split; auto. lia. }
    destruct min; [|auto].
    destruct (k prev (c :: s)) eqn:Hk; [|auto].
    inversion H; subst. exists [], (c :: s); simpl; auto.
Qed.

Lemma rep_lazy_complete (p : ascii -> bool) (w : str) :
  forall rest min prev (k : option ascii -> str -> option A),
    forallb p w = true -> min <= length w ->
    k (lastc prev w) rest <> None ->
    rep_lazy p min prev (w ++ rest) k <> None.
Proof.
  induction w as [|c w IH]; intros rest min prev k Hw Hm Hk; simpl in *.
  - assert (min = 0) by lia; subst min.
    destruct rest as [|c s]; simpl;
      destruct (k prev _); [discriminate | contradiction | discriminate
                           | contradiction].
  - apply andb_true_iff in Hw. destruct Hw as [Hc Hw]. rewrite Hc.
    specialize (IH rest (pred min) (Some c) k Hw ltac:(lia) Hk).
    destruct min; [|exact IH].
    destruct (k prev (c :: w ++ rest)); [discriminate | exact IH].
Qed.

Lemma firstn_app_length (w rest : str) :
  firstn (length (w ++ rest) - length rest) (w ++ rest) = w.
Proof.
  rewrite length_app. replace (length w + length rest - length rest)
    with (length w + 0) by lia.
  rewrite firstn_app_2. simpl. apply app_nil_r.
Qed.

Theorem mt_sound (r : regex) :
  forall prev s cs (k : option ascii -> str -> caps -> option A) a,
    mt ic r prev s cs k = Some a ->
    exists w rest cs', s = w ++ rest /\ Matches ic r prev w rest cs cs'
                       /\ k (lastc prev w) rest cs' = Some a.
Proof.
  induction r as [| c | | g min c | r1 IH1 r2 IH2 | r1 IH1 r2 IH2 | i r IH];
    intros prev s cs k a H; simpl in H.
  - exists [], s, cs. repeat split; auto. constructor.
  - destruct s as [|x s]; [discriminate|].
    destruct (cset_mem ic c x) eqn:Hc; [|discriminate].
    exists [x], s, cs. repeat split; auto. constructor; auto.
  - destruct (at_boundary prev s) eqn:Hb; [|discriminate].
    exists [], s, cs. repeat split; auto. constructor; auto.
  - assert (Hs : exists w rest, s = w ++ rest
                   /\ forallb (cset_mem ic c) w = true /\ min <= length w
                   /\ k (lastc prev w) rest cs = Some a).
    { destruct g; [apply rep_greedy_sound in H | apply rep_lazy_sound in H];
        exact H. }
    destruct Hs as [w [rest [-> [Hw [Hm Hk]]]]].
    exists w, rest, cs. repeat split; auto. constructor; auto.
  - apply IH1 in H. destruct H as [w1 [rest1 [cs1 [-> [M1 H]]]]].
    apply IH2 in H. destruct H as [w2 [rest [cs2 [-> [M2 H]]]]].
    exists (w1 ++ w2), rest, cs2. rewrite <- app_assoc, lastc_app.
    repeat split; auto. econstructor; eauto.
  - destruct (mt ic r1 prev s cs k) eqn:H1.
    + inversion H; subst a0. apply IH1 in H1.
      destruct H1 as [w [rest [cs' [-> [M1 Hk]]]]].
      exists w, rest, cs'. repeat split; auto. apply M_AltL; auto.
    + apply IH2 in H. destruct H as [w [rest [cs' [-> [M2 Hk]]]]].
      exists w, rest, cs'. repeat split; auto. apply M_AltR; auto.
  - apply IH in H. destruct H as [w [rest [cs' [-> [M1 Hk]]]]].
    rewrite firstn_app_length in Hk.
    exists w, rest, ((i, w) :: cs'). repeat split; auto. constructor; auto.
Qed.

Theorem mt_complete (r : regex) :
  forall prev w rest cs0 cs1,
    Matches ic r prev w rest cs0 cs1 ->
    forall cs (k : option ascii -> str -> caps -> option A),
      (forall cs', k (lastc prev w) rest cs' <> None) ->
      mt ic r prev (w ++ rest) cs k <> None.
Proof.
  intros prev w rest cs0 cs1 HM.
  induction HM; intros cs' k Hk; simpl.
  - apply Hk.
  - rewrite H. apply Hk.
  - rewrite H. apply Hk.
  - destruct g; [apply rep_greedy_complete | apply rep_lazy_complete];
      auto.
  - rewrite <- app_assoc. apply IHHM1. intros cs''.
    apply IHHM2. intros cs3. rewrite <- lastc_app. apply Hk.
  - specialize (IHHM cs' k Hk).
    destruct (mt ic r1 p (w ++ a) cs' k); [discriminate | contradiction].
  - specialize (IHHM cs' k Hk).
    destruct (mt ic r1 p (w ++ a) cs' k); [discriminate | exact IHHM].
  - apply IHHM. intros cs''. apply Hk.
Qed.

End MatcherFacts.

(** The groups a match adds do not depend on the groups before it. *)
Lemma Matches_caps ic r p w a cs cs1 :
  Matches ic r p w a cs cs1 ->
  exists d, cs1 = d ++ cs /\ forall cs', Matches ic r p w a cs' (d ++ cs').
Proof.
  induction 1.
  - exists []; split; auto. intros; constructor.
  - exists []; split; auto. intros; constructor; auto.
  - exists []; split; auto. intros; constructor; auto.
  - exists []; split; auto. intros; constructor; auto.
  - destruct IHMatches1 as [d1 [-> H1]]. destruct IHMatches2 as [d2 [-> H2]].
    exists (d2 ++ d1). rewrite app_assoc. split; auto.
    intros cs'. rewrite <- app_assoc. econstructor; eauto.
  - destruct IHMatches as [d [-> H1]]. exists d; split; auto.
    intros; apply M_AltL; auto.
  - destruct IHMatches as [d [-> H1]]. exists d; split; auto.
    intros; apply M_AltR; auto.
  - destruct IHMatches as [d [-> H1]]. exists ((i, w) :: d); split; auto.
    intros cs'. simpl. constructor; auto.
Qed.

Lemma Matches_from_nil ic r p w a cs cs1 :
  Matches ic r p w a cs cs1 -> exists d, Matches ic r p w a [] d.
Proof.
  intros H. apply Matches_caps in H. destruct H as [d [_ H]].
  exists (d ++ []). apply H.
Qed.

Lemma match_here_sound ic adv r prev s n cs :
  match_here ic adv r prev s = Some (n, cs) ->
  exists w rest, s = w ++ rest /\ n = length w
                 /\ Matches ic r prev w rest [] cs
                 /\ (adv = true -> w <> []).
Proof.
  unfold match_here. intros H. apply mt_sound in H.
  destruct H as [w [rest [cs' [-> [HM Hk]]]]].
  destruct (adv && Nat.eqb (length rest) (length (w ++ rest))) eqn:Ha;
    [discriminate|].
  inversion Hk; subst. exists w, rest. rewrite length_app.
  repeat split; auto; [lia|].
  intros -> ->. simpl in Ha. rewrite Nat.eqb_refl in Ha. discriminate.
Qed.

Lemma match_here_complete ic r prev w rest cs0 cs1 :
  Matches ic r prev w rest cs0 cs1 ->
  match_here ic false r prev (w ++ rest) <> None.
Proof.
  intros H. unfold match_here. eapply mt_complete; eauto.
  intros cs'. simpl. discriminate.
Qed.

Lemma match_here_complete_adv ic r prev w rest cs0 cs1 :
  Matches ic r prev w rest cs0 cs1 -> w <> [] ->
  match_here ic true r prev (w ++ rest) <> None.
Proof.
  intros H Hw. unfold match_here. eapply mt_complete; eauto.
  intros cs'. simpl.
  destruct (Nat.eqb (length rest) (length (w ++ rest))) eqn:E;
    [|discriminate].
  apply Nat.eqb_eq in E. rewrite length_app in E.
  destruct w; [congruence | simpl in E; lia].
Qed.

Lemma search_from_sound ic r (s : str) :
  forall pos prev m,
    search_from ic r pos prev s = Some m ->
    exists pre w post,
      s = pre ++ w ++ post /\ m_start m = pos + length pre /\ m_text m = w
      /\ match_here ic false r (lastc prev pre) (w ++ post)
         = Some (length w, m_groups m)
      /\ Matches ic r (lastc prev pre) w post [] (m_groups m)
      /\ NoMatchBefore ic r prev s (length pre).
Proof.
  induction s as [|c s IH]; intros pos prev m H; simpl in H.
  - destruct (match_here ic false r prev []) as [[n cs]|] eqn:Hm;
      [|discriminate].
    inversion H; subst m; clear H. pose proof Hm as Hm'.
    apply match_here_sound in Hm. destruct Hm as [w [rest [E [-> [HM _]]]]].
    symmetry in E. apply app_eq_nil in E. destruct E as [-> ->].
    exists [], [], []. simpl. repeat split; auto.
    intros pre w post cs0 cs1 _ Hl. simpl in Hl. lia.
  - destruct (match_here ic false r prev (c :: s)) as [[n cs]|] eqn:Hm.
    + inversion H; subst m; clear H. pose proof Hm as Hm'.
      apply match_here_sound in Hm. destruct Hm as [w [rest [E [-> [HM _]]]]].
      exists [], w, rest. simpl. rewrite E, firstn_app, Nat.sub_diag.
      rewrite firstn_all, app_nil_r. rewrite <- E.
      repeat split; auto.
      intros pre w' post cs0 cs1 _ Hl. simpl in Hl. lia.
    + apply IH in H.
      destruct H as [pre [w [post [-> [Hs [Ht [Hh [HM Hno]]]]]]]].
      exists (c :: pre), w, post. simpl. repeat split; auto; [lia|].
      intros pre1 w1 post1 cs0 cs1 E Hl HM1.
      destruct pre1 as [|x pre1]; simpl in *.
      * apply match_here_complete in HM1. rewrite <- E in HM1. congruence.
      * inversion E; subst x. apply (Hno pre1 w1 post1 cs0 cs1); auto. lia.
Qed.

Lemma search_from_none ic r (s : str) :
  forall pos prev,
    search_from ic r pos prev s = None ->
    forall pre w post cs0 cs1,
      s = pre ++ w ++ post -> ~ Matches ic r (lastc prev pre) w post cs0 cs1.
Proof.
  induction s as [|c s IH]; intros pos prev H pre w post cs0 cs1 E HM;
    simpl in H.
  - destruct (match_here ic false r prev []) as [[n cs]|] eqn:Hm;
      [discriminate|].
    symmetry in E. apply app_eq_nil in E. destruct E as [-> E].
    apply app_eq_nil in E. destruct E as [-> ->].
    apply match_here_complete in HM. simpl in HM. congruence.
  - destruct (match_here ic false r prev (c :: s)) as [[n cs]|] eqn:Hm;
      [discriminate|].
    destruct pre as [|x pre]; simpl in *.
    + apply match_here_complete in HM. rewrite <- E in HM. congruence.
    + inversion E; subst x. eapply IH; eauto.
Qed.

Lemma search_from_complete ic r (s : str) :
  forall pos prev pre w post cs0 cs1,
    s = pre ++ w ++ post -> Matches ic r (lastc prev pre) w post cs0 cs1 ->
    search_from ic r pos prev s <> None.
Proof.
  intros pos prev pre w post cs0 cs1 E HM Hn.
  eapply search_from_none in Hn; eauto.
Qed.

(** [re.search] succeeds exactly when the pattern matches somewhere. *)
Theorem re_search_iff ic r s :
  found_any (re_search ic r s) = true <-> MatchIn ic r s.
Proof.
  unfold re_search, MatchIn, MatchAt. split.
  - destruct (search_from ic r 0 None s) eqn:H; [|discriminate]. intros _.
    apply search_from_sound in H.
    destruct H as [pre [w [post [E [_ [_ [_ [HM _]]]]]]]].
    exists pre, w, post. split; auto. eexists; eauto.
  - intros [pre [w [post [E [cs HM]]]]].
    destruct (search_from ic r 0 None s) eqn:H; [reflexivity|].
    exfalso. eapply search_from_none in H; eauto.
Qed.

(* ----------------------------------------------------------------- *)
(** *** Reading a match off a pattern *)

Lemma Matches_Cat_inv ic r1 r2 p w a cs cs2 :
  Matches ic (Cat r1 r2) p w a cs cs2 ->
  exists w1 w2 cs1, w = w1 ++ w2 /\ Matches ic r1 p w1 (w2 ++ a) cs cs1
                    /\ Matches ic r2 (lastc p w1) w2 a cs1 cs2.
Proof. inversion 1; subst. eauto 8. Qed.

Lemma Matches_Grp_inv ic i r p w a cs cs2 :
  Matches ic (Grp i r) p w a cs cs2 ->
  exists cs1, cs2 = (i, w) :: cs1 /\ Matches ic r p w a cs cs1.
Proof. inversion 1; subst. eauto. Qed.

Lemma Matches_Rep_inv ic g min c p w a cs cs2 :
  Matches ic (Rep g min c) p w a cs cs2 ->
  cs2 = cs /\ forallb (cset_mem ic c) w = true /\ min <= length w.
Proof. inversion 1; subst. auto. Qed.

Lemma Matches_Chr_inv ic c p w a cs cs2 :
  Matches ic (Chr c) p w a cs cs2 ->
  cs2 = cs /\ exists x, w = [x] /\ cset_mem ic c x = true.
Proof. inversion 1; subst. eauto. Qed.

Lemma Matches_Bnd_inv ic p w a cs cs2 :
  Matches ic Bnd p w a cs cs2 ->
  cs2 = cs /\ w = [] /\ at_boundary p a = true.
Proof. inversion 1; subst. auto. Qed.

Lemma Matches_Eps_inv ic p w a cs cs2 :
  Matches ic Eps p w a cs cs2 -> cs2 = cs /\ w = [].
Proof. inversion 1; subst. auto. Qed.


(** A literal under [re.IGNORECASE] matches the texts equal to it up to
    case. *)
Lemma Matches_word_inv (u : str) :
  forall p w a cs cs2,
    Matches true (word u) p w a cs cs2 -> cs2 = cs /\ lower w = lower u.
Proof.
  induction u as [|c u IH]; intros p w a cs cs2 H; simpl in H.
  - apply Matches_Eps_inv in H. destruct H as [-> ->]. auto.
  - apply Matches_Cat_inv in H. destruct H as [w1 [w2 [cs1 [-> [H1 H2]]]]].
    apply Matches_Chr_inv in H1. destruct H1 as [-> [x [-> Hx]]].
    apply IH in H2. destruct H2 as [-> H2]. split; auto.
    simpl in *. apply Ascii.eqb_eq in Hx. rewrite Hx, H2. reflexivity.
Qed.

Lemma Matches_word (u : str) :
  forall p w a cs, lower w = lower u -> Matches true (word u) p w a cs cs.
Proof.
  induction u as [|c u IH]; intros p w a cs H; simpl.
  - destruct w; [constructor | discriminate].
  - destruct w as [|x w]; [discriminate|]. simpl in H. inversion H.
    change (x :: w) with ([x] ++ w). econstructor.
    + constructor. simpl. apply Ascii.eqb_eq. assumption.
    + apply IH. assumption.
Qed.

(** The same, case being significant. *)
Lemma Matches_word_inv_cs (u : str) :
  forall p w a cs cs2,
    Matches false (word u) p w a cs cs2 -> cs2 = cs /\ w = u.
Proof.
  induction u as [|c u IH]; intros p w a cs cs2 H; simpl in H.
  - apply Matches_Eps_inv in H. destruct H as [-> ->]. auto.
  - apply Matches_Cat_inv in H. destruct H as [w1 [w2 [cs1 [-> [H1 H2]]]]].
    apply Matches_Chr_inv in H1. destruct H1 as [-> [x [-> Hx]]].
    apply IH in H2. destruct H2 as [-> H2]. split; auto.
    simpl in *. apply Ascii.eqb_eq in Hx. rewrite Hx, H2. reflexivity.
Qed.

Lemma lower_eq_length (w u : str) : lower w = lower u -> length w = length u.
Proof. intros H. rewrite <- (lower_length w), H. apply lower_length. Qed.

Lemma lower_eq_nil (w : str) : lower w = [] -> w = [].
Proof. destruct w; [auto | discriminate]. Qed.

(* ----------------------------------------------------------------- *)
(** *** The patterns of the processor, read as clauses *)

Tactic Notation "inv_cat" hyp(H) "as" ident(wa) ident(M) :=
  let w2 := fresh "rest" in
  let cs1 := fresh "cs" in
  apply Matches_Cat_inv in H;
  destruct H as [wa [w2 [cs1 [-> [M H]]]]].

Lemma Matches_sp1_inv p w a cs cs2 :
  Matches true sp1 p w a cs cs2 -> cs2 = cs /\ spaces1 w.
Proof.
  intros H. apply Matches_Rep_inv in H. destruct H as [-> [Hw Hl]].
  split; auto. split; auto. destruct w; simpl in *; [lia | discriminate].
Qed.

Lemma Matches_w1_inv p w a cs cs2 :
  Matches true w1 p w a cs cs2 -> cs2 = cs /\ word1 w.
Proof.
  intros H. apply Matches_Rep_inv in H. destruct H as [-> [Hw Hl]].
  split; auto. split; auto. destruct w; simpl in *; [lia | discriminate].
Qed.

Lemma Matches_sp1 p w a cs : spaces1 w -> Matches true sp1 p w a cs cs.
Proof.
  intros [Hn Hw]. constructor; auto.
  destruct w; [congruence | simpl; lia].
Qed.

Lemma Matches_w1 p w a cs : word1 w -> Matches true w1 p w a cs cs.
Proof.
  intros [Hn Hw]. constructor; auto.
  destruct w; [congruence | simpl; lia].
Qed.

(** A text equal up to case to a literal that starts with a word character
    starts with one. *)
Lemma ci_head_word (w u : str) (c : ascii) (a : str) :
  ci w (c :: u) -> isword c = true -> wordish (hd_error (w ++ a)) = true.
Proof.
  intros H Hc. destruct w as [|x w]; [discriminate|]. simpl in *.
  unfold ci in H. simpl in H. inversion H.
  rewrite <- isword_lower, H1, isword_lower. exact Hc.
Qed.

Lemma boundary_before_word (p : option ascii) (s : str) :
  wordish (hd_error s) = true ->
  at_boundary p s = true <-> wordish p = false.
Proof.
  intros H. unfold at_boundary. rewrite H.
  destruct (wordish p); simpl; split; congruence.
Qed.


Ltac inv_bnd M Hb := apply Matches_Bnd_inv in M; destruct M as [-> [-> Hb]].
Ltac inv_word M He := apply Matches_word_inv in M; destruct M as [-> He].
Ltac inv_sp1 M Hs := apply Matches_sp1_inv in M; destruct M as [-> Hs].
Ltac inv_w1 M Hs := apply Matches_w1_inv in M; destruct M as [-> Hs].
Ltac inv_grp M :=
  let cs1 := fresh "cs" in
  apply Matches_Grp_inv in M; destruct M as [cs1 [-> M]].

Ltac head_is_word Hb He :=
  eapply boundary_before_word; [|exact Hb];
  rewrite <- ?app_assoc; eapply ci_head_word; [exact He | reflexivity].

Ltac start_at_boundary Hp He :=
  constructor; apply boundary_before_word; auto;
  rewrite <- ?app_assoc; eapply ci_head_word; [exact He | reflexivity].

(** [\bentity\s+(\w+)\s+is]. *)
Lemma Matches_entity_name p w a cs cs2 :
  Matches true entity_name_re p w a cs cs2 <->
  wordish p = false
  /\ exists n, word1 n /\ entity_named n w /\ cs2 = (1, n) :: cs.
Proof.
  unfold entity_name_re; cbn [seq]. split.
  - intros H. inv_cat H as b Mb. inv_cat H as e Me. inv_cat H as s1 Ms1.
    inv_cat H as n Mn. inv_cat H as s2 Ms2.
    inv_bnd Mb Hb. inv_word Me He. inv_sp1 Ms1 Hs1. inv_grp Mn.
    inv_w1 Mn Hn. inv_sp1 Ms2 Hs2. inv_word H Hi.
    cbn [app lastc] in *. split; [head_is_word Hb He|].
    exists n. repeat split; try apply Hn.
    exists e, s1, s2, rest. repeat split; auto; apply Hs1 || apply Hs2.
  - intros [Hp [n [Hn [[e [s1 [s2 [i [-> [He [Hs1 [Hs2 Hi]]]]]]]] ->]]]].
    change (e ++ s1 ++ n ++ s2 ++ i) with ([] ++ e ++ s1 ++ n ++ s2 ++ i).
    econstructor; [start_at_boundary Hp He|].
    econstructor; [apply Matches_word; exact He|].
    econstructor; [apply Matches_sp1; exact Hs1|].
    econstructor; [constructor; apply Matches_w1; exact Hn|].
    econstructor; [apply Matches_sp1; exact Hs2|].
    apply Matches_word; exact Hi.
Qed.

(** [\bentity\s+\w+\s+is]. *)
Lemma Matches_entity p w a cs cs2 :
  Matches true entity_re p w a cs cs2 <->
  wordish p = false /\ entity_clause w a /\ cs2 = cs.
Proof.
  unfold entity_re, entity_clause; cbn [seq]. split.
  - intros H. inv_cat H as b Mb. inv_cat H as e Me. inv_cat H as s1 Ms1.
    inv_cat H as n Mn. inv_cat H as s2 Ms2.
    inv_bnd Mb Hb. inv_word Me He. inv_sp1 Ms1 Hs1.
    inv_w1 Mn Hn. inv_sp1 Ms2 Hs2. inv_word H Hi.
    cbn [app lastc] in *. split; [head_is_word Hb He|]. split; auto.
    exists n. split; auto.
    exists e, s1, s2, rest. repeat split; auto; apply Hs1 || apply Hs2.
  - intros [Hp [[n [Hn [e [s1 [s2 [i [-> [He [Hs1 [Hs2 Hi]]]]]]]]]] ->]].
    change (e ++ s1 ++ n ++ s2 ++ i) with ([] ++ e ++ s1 ++ n ++ s2 ++ i).
    econstructor; [start_at_boundary Hp He|].
    econstructor; [apply Matches_word; exact He|].
    econstructor; [apply Matches_sp1; exact Hs1|].
    econstructor; [apply Matches_w1; exact Hn|].
    econstructor; [apply Matches_sp1; exact Hs2|].
    apply Matches_word; exact Hi.
Qed.

(** [\bentity\s+<name>\s+is]. *)
Lemma Matches_entity_of name p w a cs cs2 :
  Matches true (entity_of_re name) p w a cs cs2 <->
  wordish p = false /\ entity_text name w /\ cs2 = cs.
Proof.
  unfold entity_of_re, entity_text; cbn [seq]. split.
  - intros H. inv_cat H as b Mb. inv_cat H as e Me. inv_cat H as s1 Ms1.
    inv_cat H as n Mn. inv_cat H as s2 Ms2.
    inv_bnd Mb Hb. inv_word Me He. inv_sp1 Ms1 Hs1.
    inv_word Mn Hn. inv_sp1 Ms2 Hs2. inv_word H Hi.
    cbn [app lastc] in *. split; [head_is_word Hb He|]. split; auto.
    exists n. split; auto.
    exists e, s1, s2, rest. repeat split; auto; apply Hs1 || apply Hs2.
  - intros [Hp [[n [Hn [e [s1 [s2 [i [-> [He [Hs1 [Hs2 Hi]]]]]]]]]] ->]].
    change (e ++ s1 ++ n ++ s2 ++ i) with ([] ++ e ++ s1 ++ n ++ s2 ++ i).
    econstructor; [start_at_boundary Hp He|].
    econstructor; [apply Matches_word; exact He|].
    econstructor; [apply Matches_sp1; exact Hs1|].
    econstructor; [apply Matches_word; exact Hn|].
    econstructor; [apply Matches_sp1; exact Hs2|].
    apply Matches_word; exact Hi.
Qed.


(** [\barchitecture\s+(\w+)\s+of\s+<name>\s+is]. *)
Lemma Matches_architecture_of name p w a cs cs2 :
  Matches true (architecture_of_re name) p w a cs cs2 <->
  wordish p = false
  /\ exists id n, ci n name /\ architecture_named id n w
                  /\ cs2 = (1, id) :: cs.
Proof.
  unfold architecture_of_re; cbn [seq]. split.
  - intros H. inv_cat H as b Mb. inv_cat H as e Me. inv_cat H as s1 Ms1.
    inv_cat H as id Mid. inv_cat H as s2 Ms2. inv_cat H as o Mo.
    inv_cat H as s3 Ms3. inv_cat H as n Mn. inv_cat H as s4 Ms4.
    inv_bnd Mb Hb. inv_word Me He. inv_sp1 Ms1 Hs1. inv_grp Mid.
    inv_w1 Mid Hid.
    inv_sp1 Ms2 Hs2. inv_word Mo Ho. inv_sp1 Ms3 Hs3.
    inv_word Mn Hn. inv_sp1 Ms4 Hs4. inv_word H Hi.
    cbn [app lastc] in *. split; [head_is_word Hb He|].
    exists id, n. repeat split; auto.
    exists e, s1, s2, o, s3, s4, rest. repeat split; auto;
      apply Hs1 || apply Hs2 || apply Hs3 || apply Hs4 || apply Hid.
  - intros [Hp [id [n [Hn [[e [s1 [s2 [o [s3 [s4 [i
      [-> [He [Hs1 [Hid [Hs2 [Ho [Hs3 [Hs4 Hi]]]]]]]]]]]]]]] ->]]]]].
    match goal with |- Matches _ _ _ ?t _ _ _ => change t with ([] ++ t) end.
    econstructor; [start_at_boundary Hp He|].
    econstructor; [apply Matches_word; exact He|].
    econstructor; [apply Matches_sp1; exact Hs1|].
    econstructor; [constructor; apply Matches_w1; exact Hid|].
    econstructor; [apply Matches_sp1; exact Hs2|].
    econstructor; [apply Matches_word; exact Ho|].
    econstructor; [apply Matches_sp1; exact Hs3|].
    econstructor; [apply Matches_word; exact Hn|].
    econstructor; [apply Matches_sp1; exact Hs4|].
    apply Matches_word; exact Hi.
Qed.

(** [\bmodule\s+(\w+)]. *)
Lemma Matches_module_name p w a cs cs2 :
  Matches true module_name_re p w a cs cs2 <->
  wordish p = false
  /\ exists n, word1 n /\ module_named n w /\ cs2 = (1, n) :: cs.
Proof.
  unfold module_name_re; cbn [seq]. split.
  - intros H. inv_cat H as b Mb. inv_cat H as e Me. inv_cat H as s1 Ms1.
    inv_bnd Mb Hb. inv_word Me He. inv_sp1 Ms1 Hs1. inv_grp H. inv_w1 H Hn.
    cbn [app lastc] in *. split; [head_is_word Hb He|].
    exists rest. repeat split; try apply Hn.
    exists e, s1. repeat split; auto; apply Hs1.
  - intros [Hp [n [Hn [[e [s1 [-> [He Hs1]]]] ->]]]].
    change (e ++ s1 ++ n) with ([] ++ e ++ s1 ++ n).
    econstructor; [start_at_boundary Hp He|].
    econstructor; [apply Matches_word; exact He|].
    econstructor; [apply Matches_sp1; exact Hs1|].
    constructor; apply Matches_w1; exact Hn.
Qed.

(** [\bmodule\s+\w+]. *)
Lemma Matches_module p w a cs cs2 :
  Matches true module_re p w a cs cs2 <->
  wordish p = false /\ module_clause w a /\ cs2 = cs.
Proof.
  unfold module_re, module_clause; cbn [seq]. split.
  - intros H. inv_cat H as b Mb. inv_cat H as e Me. inv_cat H as s1 Ms1.
    inv_bnd Mb Hb. inv_word Me He. inv_sp1 Ms1 Hs1. inv_w1 H Hn.
    cbn [app lastc] in *. split; [head_is_word Hb He|]. split; auto.
    exists rest. split; auto.
    exists e, s1. repeat split; auto; apply Hs1.
  - intros [Hp [[n [Hn [e [s1 [-> [He Hs1]]]]]] ->]].
    change (e ++ s1 ++ n) with ([] ++ e ++ s1 ++ n).
    econstructor; [start_at_boundary Hp He|].
    econstructor; [apply Matches_word; exact He|].
    econstructor; [apply Matches_sp1; exact Hs1|].
    apply Matches_w1; exact Hn.
Qed.


(** A pattern that starts at a word boundary and sets no group matches
    somewhere exactly when its clause stands somewhere. *)
Lemma MatchIn_Site (r : regex) (P : str -> str -> Prop) :
  (forall p w a cs cs2,
      Matches true r p w a cs cs2 <-> wordish p = false /\ P w a /\ cs2 = cs) ->
  forall s, MatchIn true r s <-> Site P s.
Proof.
  intros HP s. unfold MatchIn, MatchAt, Site. split.
  - intros [pre [w [post [E [cs H]]]]]. apply HP in H.
    destruct H as [Hp [Hw _]]. exists pre, w, post. auto.
  - intros [pre [w [post [E [Hp Hw]]]]]. exists pre, w, post. split; auto.
    exists []. apply HP. auto.
Qed.

Lemma search_entity code :
  found_any (re_search true entity_re code) = true <->
  Site entity_clause code.
Proof.
  rewrite re_search_iff. apply MatchIn_Site. apply Matches_entity.
Qed.


Lemma search_module code :
  found_any (re_search true module_re code) = true <->
  Site module_clause code.
Proof.
  rewrite re_search_iff. apply MatchIn_Site. apply Matches_module.
Qed.


(* ================================================================= *)
(** ** The syntax gate *)


(* ================================================================= *)
(** ** Validated code has a top-level name *)

Lemma m_group_1 (m : found) (n : str) (cs : caps) :
  m_groups m = (1, n) :: cs -> m_group 1 m = n.
Proof. unfold m_group. intros ->. reflexivity. Qed.

Lemma extract_entity_name_vhdl code :
  Site entity_clause code ->
  exists name, _extract_entity_name code vhdl = Some name /\ word1 name.
Proof.
  intros [pre [w [post [E [Hp [n [Hn Hw]]]]]]].
  unfold _extract_entity_name. change (str_eqb vhdl vhdl) with true. cbv iota.
  destruct (re_search true entity_name_re code) as [m|] eqn:Hs.
  - apply search_from_sound in Hs.
    destruct Hs as [pre' [w' [post' [_ [_ [_ [_ [HM _]]]]]]]].
    apply Matches_entity_name in HM. destruct HM as [_ [n' [Hn' [_ Hc]]]].
    exists (m_group 1 m). split; auto.
    rewrite (m_group_1 _ Hc). exact Hn'.
  - exfalso. apply (@search_from_none _ _ _ 0 None Hs pre w post [] [(1, n)] E).
    apply Matches_entity_name. split; [exact Hp|]. exists n. eauto.
Qed.

Lemma extract_entity_name_verilog code :
  Site module_clause code ->
  exists name, _extract_entity_name code verilog = Some name /\ word1 name.
Proof.
  intros [pre [w [post [E [Hp [n [Hn Hw]]]]]]].
  unfold _extract_entity_name. change (str_eqb verilog vhdl) with false.
  change (str_eqb verilog verilog) with true. cbv iota.
  destruct (re_search true module_name_re code) as [m|] eqn:Hs.
  - apply search_from_sound in Hs.
    destruct Hs as [pre' [w' [post' [_ [_ [_ [_ [HM _]]]]]]]].
    apply Matches_module_name in HM. destruct HM as [_ [n' [Hn' [_ Hc]]]].
    exists (m_group 1 m). split; auto.
    rewrite (m_group_1 _ Hc). exact Hn'.
  - exfalso. apply (@search_from_none _ _ _ 0 None Hs pre w post [] [(1, n)] E).
    apply Matches_module_name. split; [exact Hp|]. exists n. eauto.
Qed.

(** Code that passes the syntax gate has the declaration of its
    language. *)
Lemma validated_vhdl code :
  _validate_basic_syntax code vhdl = Ok tt -> Site entity_clause code.
Proof.
  unfold _validate_basic_syntax. change (str_eqb vhdl vhdl) with true.
  cbv iota. rewrite <- search_entity.
  destruct (found_any (re_search true entity_re code));
    [reflexivity | discriminate].
Qed.

Lemma validated_verilog code :
  _validate_basic_syntax code verilog = Ok tt -> Site module_clause code.
Proof.
  unfold _validate_basic_syntax. change (str_eqb verilog vhdl) with false.
  change (str_eqb verilog verilog) with true. cbv iota.
  rewrite <- search_module.
  destruct (found_any (re_search true module_re code));
    [reflexivity | discriminate].
Qed.


(** C10: when basic syntax validation passes for VHDL or Verilog code,
    the extraction of the top-level identifier returns a name (a non-empty
    run of word characters), never none. *)
Theorem validated_code_has_name (code language : str) :
  language = vhdl \/ language = verilog ->
  _validate_basic_syntax code language = Ok tt ->
  exists name, _extract_entity_name code language = Some name /\ word1 name.
Proof.
  intros Hl Hv. destruct Hl as [-> | ->].
  - apply extract_entity_name_vhdl. apply validated_vhdl. exact Hv.
  - apply extract_entity_name_verilog. apply validated_verilog. exact Hv.
Qed.


Lemma validated_code_has_name_witness :
  let code := lit "entity a is architecture r of a is" in
  (vhdl = vhdl \/ vhdl = verilog)
  /\ _validate_basic_syntax code vhdl = Ok tt
  /\ exists name, _extract_entity_name code vhdl = Some name /\ word1 name.
Proof.
  cbv zeta. split; [left; reflexivity|].
  split; [vm_compute; reflexivity|].
  apply (@validated_code_has_name (lit "entity a is architecture r of a is")
           vhdl); [left; reflexivity | vm_compute; reflexivity].
Defined.

(* ================================================================= *)
(** ** Testbench detection *)

(** C9 (as amended): [has_testbench] is true exactly when the lower-cased
    code contains one of [testbench], [tb_], [_tb], [test_] for VHDL, and
    one of [testbench], [tb_], [_tb], [initial], [$monitor] for Verilog. *)
Theorem detect_testbench_markers (code : str) :
  (_detect_testbench code vhdl = true <->
   exists k, In k [lit "testbench"; lit "tb_"; lit "_tb"; lit "test_"]
             /\ Occurs k (lower code))
  /\ (_detect_testbench code verilog = true <->
      exists k, In k [lit "testbench"; lit "tb_"; lit "_tb"; lit "initial";
                      lit "$monitor"]
                /\ Occurs k (lower code)).
Proof.
  unfold _detect_testbench.
  change (str_eqb vhdl vhdl) with true.
  change (str_eqb verilog vhdl) with false.
  change (str_eqb verilog verilog) with true. cbv iota.
  split; apply any_in_iff.
Qed.

(** Verilog code whose only marker is [test_] is not detected. *)
Lemma detect_testbench_counterexample :
  ~ spec_testbench (lit "module test_and; endmodule") verilog.
Proof.
  unfold spec_testbench. intros [_ H].
  assert (D : _detect_testbench (lit "module test_and; endmodule") verilog
              = true).
  { apply H. exists (lit "test_"). split.
    - vm_compute. tauto.
    - apply contains_iff. vm_compute. reflexivity. }
  vm_compute in D. discriminate.
Qed.

(* ================================================================= *)
(** ** Extraction of the code and its language *)


















(* ================================================================= *)
(** ** Compilation *)

Lemma _compile_vhdl_returns self run entity_name hdl_file build_dir w :
  exists r w',
    _compile_vhdl self run entity_name hdl_file build_dir w = (Ok r, w').
Proof.
  unfold _compile_vhdl, try_except, mbind, run_cmd, compile_handlers, ret.
  destruct (run (analyze_cmd self hdl_file build_dir) (timeout self) w)
    as [[rc err| |msg] w1]; eauto.
  cbn [fst snd]. destruct (negb (rc =? 0)%Z); eauto.
  destruct (run (elaborate_cmd self entity_name build_dir) (timeout self) w1)
    as [[rc2 err2| |msg2] w2]; eauto.
  cbn [fst snd]. destruct (negb (rc2 =? 0)%Z); eauto.
  unfold collect, mbind.
  destruct (listdir build_dir w2) as [[files|e] w3]; eauto.
  destruct e; eauto.
Qed.

Lemma _compile_verilog_returns self run entity_name hdl_file build_dir w :
  exists r w',
    _compile_verilog self run entity_name hdl_file build_dir w = (Ok r, w').
Proof.
  unfold _compile_verilog, try_except, mbind, run_cmd, compile_handlers, ret.
  destruct (run (compile_cmd self entity_name hdl_file build_dir)
              (timeout self) w) as [[rc err| |msg] w1]; eauto.
  cbn [fst snd]. destruct (negb (rc =? 0)%Z); eauto.
  unfold collect, mbind.
  destruct (listdir build_dir w1) as [[files|e] w3]; eauto.
  destruct e; eauto.
Qed.

(** What [compile_hdl] does once the source file is written. *)
Lemma compile_hdl_written self run hdl_code session_id w w2 :
  Written self hdl_code session_id w w2 ->
  compile_hdl self run hdl_code session_id w =
  try_except
    (result <-
       (if str_eqb (language hdl_code) vhdl then
          _compile_vhdl self run (entity_name hdl_code)
            (hdl_file_of self hdl_code session_id)
            (build_dir_of self session_id)
        else if str_eqb (language hdl_code) verilog then
          _compile_verilog self run (entity_name hdl_code)
            (hdl_file_of self hdl_code session_id)
            (build_dir_of self session_id)
        else
          raise (ValueError (lit "Unsupported HDL language: "
                             ++ language hdl_code))) ;;
     now <- time ;;
     ret (set_time (now - clock w) result))
    (fun e =>
       now <- time ;;
       ret (set_time (now - clock w)
              (failed (entity_name hdl_code) (language hdl_code)
                 (exn_str e)))) w2.
Proof.
  intros [w1 [H1 H2]]. unfold compile_hdl.
  unfold mbind at 1. unfold time at 1. cbv beta iota zeta.
  unfold mbind at 1. rewrite H1. unfold mbind at 1. rewrite H2. reflexivity.
Qed.

Lemma timeout_message_shows_timeout (self : HDLProcessor) :
  Occurs (str_of_nat (timeout self)) (timeout_message self).
Proof.
  unfold timeout_message. exists (lit "Compilation timeout after ").
  exists (lit " seconds"). reflexivity.
Qed.

(** C3 (as amended): once the session's build directory is made and the
    source file written in it, [compile_hdl] returns a [CompilationResult]
    and raises nothing, whatever the compilers do; and when a compiler
    invocation exceeds the configured timeout, the result has
    [success = false] and an error message that contains the configured
    timeout value. *)
Theorem compile_hdl_returns_result self run hdl_code session_id w w2 :
  Written self hdl_code session_id w w2 ->
  (exists r w', compile_hdl self run hdl_code session_id w = (Ok r, w'))
  /\ (TimesOut self run hdl_code session_id w2 ->
      exists r w',
        compile_hdl self run hdl_code session_id w = (Ok r, w')
        /\ success r = false
        /\ error_message r = Some (timeout_message self)
        /\ Occurs (str_of_nat (timeout self)) (timeout_message self)).
Proof.
  intros HW. rewrite (compile_hdl_written run HW). split.
  - unfold try_except, mbind, time, ret, raise.
    destruct (str_eqb (language hdl_code) vhdl).
    + destruct (_compile_vhdl_returns self run (entity_name hdl_code)
                  (hdl_file_of self hdl_code session_id)
                  (build_dir_of self session_id) w2) as [r [w' ->]]. eauto.
    + destruct (str_eqb (language hdl_code) verilog).
      * destruct (_compile_verilog_returns self run (entity_name hdl_code)
                    (hdl_file_of self hdl_code session_id)
                    (build_dir_of self session_id) w2) as [r [w' ->]]. eauto.
      * eauto.
  - unfold TimesOut. cbv zeta.
    intros [[Hl [Ht | [err [w3 [Ha Ht]]]]] | [Hl Ht]]; rewrite Hl.
    + change (str_eqb vhdl vhdl) with true. cbv iota.
      unfold _compile_vhdl, try_except, mbind, run_cmd, compile_handlers,
        time, ret.
      destruct (run (analyze_cmd self (hdl_file_of self hdl_code session_id)
                       (build_dir_of self session_id)) (timeout self) w2)
        as [o w3]. simpl in Ht. subst o.
      do 2 eexists. split; [reflexivity|]. simpl.
      repeat split. apply timeout_message_shows_timeout.
    + change (str_eqb vhdl vhdl) with true. cbv iota.
      unfold _compile_vhdl, try_except, mbind, run_cmd, compile_handlers,
        time, ret.
      rewrite Ha. cbn [fst snd Z.eqb negb].
      destruct (run (elaborate_cmd self (entity_name hdl_code)
                       (build_dir_of self session_id)) (timeout self) w3)
        as [o w4]. simpl in Ht. subst o.
      do 2 eexists. split; [reflexivity|]. simpl.
      repeat split. apply timeout_message_shows_timeout.
    + change (str_eqb verilog vhdl) with false.
      change (str_eqb verilog verilog) with true. cbv iota.
      unfold _compile_verilog, try_except, mbind, run_cmd, compile_handlers,
        time, ret.
      destruct (run (compile_cmd self (entity_name hdl_code)
                       (hdl_file_of self hdl_code session_id)
                       (build_dir_of self session_id)) (timeout self) w2)
        as [o w3]. simpl in Ht. subst o.
      do 2 eexists. split; [reflexivity|]. simpl.
      repeat split. apply timeout_message_shows_timeout.
Qed.

Example parse_and_gate :
  parse_hdl_code and_gate_response (lit "my_and") = Ok my_and.
Proof. vm_compute. reflexivity. Qed.

(** In a world where nothing can be created, the source file cannot be
    written and [compile_hdl] raises. *)
Lemma compile_hdl_raises_counterexample : ~ spec_compile_never_raises.
Proof.
  intros H.
  destruct (H default_processor hanging_tool my_and (lit "s1")
              read_only_world) as [r [w' E]].
  vm_compute in E. discriminate E.
Qed.

Lemma compile_hdl_returns_result_witness :
  let w2 :=
    set_node (lit "build/s1/my_and.vhdl") (File (content my_and))
      (set_node (lit "build/s1") Dir empty_world) in
  Written default_processor my_and (lit "s1") empty_world w2
  /\ TimesOut default_processor hanging_tool my_and (lit "s1") w2
  /\ exists r w',
       compile_hdl default_processor hanging_tool my_and (lit "s1")
         empty_world = (Ok r, w')
       /\ success r = false
       /\ error_message r = Some (timeout_message default_processor)
       /\ Occurs (str_of_nat (timeout default_processor))
            (timeout_message default_processor).
Proof.
  cbv zeta.
  assert (HW : Written default_processor my_and (lit "s1") empty_world
                 (set_node (lit "build/s1/my_and.vhdl")
                    (File (content my_and))
                    (set_node (lit "build/s1") Dir empty_world))).
  { exists (set_node (lit "build/s1") Dir empty_world).
    split; reflexivity. }
  assert (HT : TimesOut default_processor hanging_tool my_and (lit "s1")
                 (set_node (lit "build/s1/my_and.vhdl")
                    (File (content my_and))
                    (set_node (lit "build/s1") Dir empty_world))).
  { left. split; [reflexivity | left; reflexivity]. }
  split; [exact HW|]. split; [exact HT|].
  exact (proj2 (compile_hdl_returns_result hanging_tool HW) HT).
Defined.

(* ================================================================= *)
(** ** Export *)
















(* ================================================================= *)
(** ** The manifest *)





(* ================================================================= *)
(** ** The first fenced block *)

Section Priorities.

Variable A : Type.



End Priorities.

Lemma app_eq_length [X : Type] (a b c d : list X) :
  a ++ b = c ++ d -> length a = length c -> a = c /\ b = d.
Proof.
  revert c; induction a as [|x a IH]; intros [|y c] E Hl;
    simpl in *; try discriminate; auto.
  inversion E; subst. destruct (IH c H1) as [-> ->]; auto.
Qed.

(** Two texts that start alike: one is a prefix of the other. *)
Lemma app_eq_app_le [X : Type] (a b c d : list X) :
  a ++ b = c ++ d -> length a <= length c ->
  exists m, c = a ++ m /\ b = m ++ d.
Proof.
  revert c; induction a as [|x a IH]; intros c E Hl; simpl in *.
  - exists c. auto.
  - destruct c as [|y c]; [simpl in Hl; lia|]. simpl in *.
    inversion E; subst. destruct (IH c H1 ltac:(lia)) as [m [-> ->]].
    exists m. auto.
Qed.


Lemma forallb_isspace_mem (w : str) :
  forallb (cset_mem true CSpace) w = forallb isspace w.
Proof. reflexivity. Qed.

















(* ================================================================= *)
(** ** Rewriting the declared name *)

(* ----------------------------------------------------------------- *)
(** *** What [re.sub] does, clause by clause *)

Lemma scan_skip ic r (w : str) :
  forall prev post,
    scan ic r (Some (length w)) prev (w ++ post)
    = scan ic r None (lastc prev w) post.
Proof.
  induction w as [|c w IH]; intros prev post; simpl.
  - destruct post; reflexivity.
  - apply IH.
Qed.

Section ScanRewrites.

Variable r : regex.
Variable t : list titem.
Variable Cl : str -> Prop.
Variable Out : str -> str -> Prop.

Hypothesis match_shape :
  forall p s n cs,
    match_here true false r p s = Some (n, cs) ->
    exists w post,
      s = w ++ post /\ n = length w /\ w <> [] /\ wordish p = false
      /\ Cl w /\ Out w (expand t w cs).

Hypothesis match_found :
  forall p w post,
    wordish p = false -> Cl w -> match_here true false r p (w ++ post) <> None.

Lemma sub_out_Rw (n : nat) :
  forall s prev, length s <= n -> Rw Cl Out prev s (sub_out true r t prev s).
Proof.
  induction n as [|n IH]; intros s prev Hl.
  - destruct s; [|simpl in Hl; lia]. unfold sub_out. simpl. unfold attempt.
    destruct (match_here true false r prev []) as [[k cs]|] eqn:Hm.
    + apply match_shape in Hm.
      destruct Hm as [w [post [E [_ [Hw _]]]]].
      symmetry in E. apply app_eq_nil in E. destruct E; contradiction.
    + simpl. constructor.
  - destruct s as [|c s]; [apply (IH [] prev); simpl; lia|].
    unfold sub_out. cbn [scan]. unfold attempt.
    destruct (match_here true false r prev (c :: s)) as [[k cs]|] eqn:Hm.
    + destruct (match_shape _ _ Hm)
        as [w [post [E [-> [Hw [Hp [Hc Ho]]]]]]].
      destruct w as [|c' w]; [contradiction|]. simpl in E.
      inversion E; subst c' s. cbn [length].
      rewrite scan_skip. cbn [flat_map app sub_piece].
      replace (firstn (S (length w)) (c :: w ++ post)) with (c :: w).
      2:{ change (c :: w ++ post) with ((c :: w) ++ post).
          change (S (length w)) with (length (c :: w)).
          rewrite firstn_app, Nat.sub_diag, firstn_all. simpl.
          rewrite app_nil_r. reflexivity. }
      change (c :: w ++ post) with ((c :: w) ++ post).
      apply Rw_hit; auto. apply IH. simpl in Hl. rewrite length_app in Hl. lia.
    + cbn [flat_map app sub_piece]. apply Rw_gap.
      * intros w post E Hc. destruct (wordish prev) eqn:Hp; [reflexivity|].
        exfalso. apply (@match_found prev w post Hp Hc). rewrite <- E. exact Hm.
      * apply IH. simpl in Hl. lia.
Qed.

End ScanRewrites.

Lemma wordish_lastc (q q' : option ascii) (x : str) :
  wordish q = wordish q' -> wordish (lastc q x) = wordish (lastc q' x).
Proof. destruct x as [|c x]; simpl; auto. Qed.

Lemma Rw_cons_inv Cl Out prev c s out :
  Rw Cl Out prev (c :: s) out ->
  (exists out',
      out = c :: out' /\ Rw Cl Out (Some c) s out'
      /\ forall w post, c :: s = w ++ post -> Cl w -> wordish prev = true)
  \/ (exists w post rep out',
         c :: s = w ++ post /\ Cl w /\ wordish prev = false /\ Out w rep
         /\ out = rep ++ out' /\ Rw Cl Out (lastc prev w) post out').
Proof.
  intros H. inversion H; subst.
  - left. eauto.
  - right. exists w, post, rep, out0. auto 7.
Qed.

Section RwFacts.

Variable Cl : str -> Prop.
Variable Out : str -> str -> Prop.

Hypothesis Cl_first : forall w, Cl w -> wordish (hd_error w) = true.
Hypothesis Cl_last : forall w p, Cl w -> wordish (lastc p w) = true.
Hypothesis Out_last : forall w rep p, Out w rep -> wordish (lastc p rep) = true.


Lemma Cl_nonempty w : Cl w -> w <> [].
Proof. intros H ->. apply Cl_first in H. discriminate. Qed.

(** The rewriting of a text splits at a point that no clause crosses. *)
Lemma Rw_split prev s out :
  Rw Cl Out prev s out ->
  forall a b,
    s = a ++ b -> Clear Cl prev a b ->
    exists a' out_b,
      out = a' ++ out_b /\ Rw Cl Out (lastc prev a) b out_b
      /\ forall q, wordish q = wordish prev ->
                   wordish (lastc q a') = wordish (lastc prev a).
Proof.
  induction 1 as [prev | prev c s out Hno HR IH
                  | prev w post rep out Hw Hp Ho HR IH]; intros a b E Hc.
  - symmetry in E. apply app_eq_nil in E. destruct E as [-> ->].
    exists [], []. repeat split; auto. constructor.
  - destruct a as [|c' a]; simpl in E.
    + subst b. exists [], (c :: out). repeat split; auto.
      constructor; auto.
    + inversion E; subst c' s.
      destruct (IH a b eq_refl) as [a' [ob [-> [HRb Hq]]]].
      { intros pre w post E' Hw Hb Hl.
        assert (L := Hc (c :: pre) w post). simpl in L.
        rewrite E' in L. specialize (L eq_refl Hw Hb). lia. }
      exists (c :: a'), ob. repeat split; auto.
      intros q _. simpl. apply Hq. reflexivity.
  - destruct a as [|c' a].
    + simpl in E. subst b. exists [], (rep ++ out). repeat split; auto.
      constructor; auto.
    + assert (L : length w <= length (c' :: a)).
      { assert (L := Hc [] w post (eq_sym E) Hw Hp). simpl in *. lia. }
      destruct (app_eq_app_le _ _ _ _ E L) as [a1 [Ea ->]].
      rewrite Ea in *. clear Ea.
      destruct (IH a1 b eq_refl) as [a' [ob [-> [HRb Hq]]]].
      { intros pre w' post E' Hw' Hb Hl.
        assert (L' := Hc (w ++ pre) w' post).
        rewrite <- !app_assoc, E', lastc_app, !length_app in L'.
        specialize (L' eq_refl Hw' Hb). lia. }
      exists (rep ++ a'), ob. rewrite lastc_app, <- app_assoc.
      repeat split; auto. intros q _. rewrite lastc_app. apply Hq.
      rewrite (Cl_last _ Hw). apply Out_last with (w := w). exact Ho.
Qed.

(** A stretch of text in which no clause starts is kept. *)
Lemma Rw_keep (t : str) :
  forall p b out,
    Rw Cl Out p (t ++ b) out ->
    (forall pre w post,
        t ++ b = pre ++ w ++ post -> Cl w ->
        wordish (lastc p pre) = false -> length t <= length pre) ->
    exists b', out = t ++ b' /\ Rw Cl Out (lastc p t) b b'.
Proof.
  induction t as [|c t IH]; intros p b out HR Hno.
  - exists out. auto.
  - simpl in HR. apply Rw_cons_inv in HR.
    destruct HR as [[out' [-> [HR _]]]
                   | [w [post [rep [out' [E [Hw [Hp _]]]]]]]].
    + destruct (IH (Some c) b out' HR) as [b' [-> HR']].
      { intros pre w post E Hw Hb.
        assert (L := Hno (c :: pre) w post). simpl in L. rewrite E in L.
        specialize (L eq_refl Hw Hb). lia. }
      exists b'. auto.
    + exfalso. assert (L := Hno [] w post E Hw Hp). simpl in L. lia.
Qed.

(** A text that no clause touches is kept, and so is the word boundary
    before it. *)
Lemma Rw_apart prev a t b out :
  Rw Cl Out prev (a ++ t ++ b) out -> Apart Cl prev a t b ->
  exists a' b',
    out = a' ++ t ++ b'
    /\ wordish (lastc prev a') = wordish (lastc prev a)
    /\ Rw Cl Out (lastc prev (a ++ t)) b b'.
Proof.
  intros HR Ha.
  destruct (Rw_split HR (a:=a) (b:=t ++ b) eq_refl) as [a' [ob [-> [HR' Hq]]]].
  { intros pre w post E Hw Hb Hl. destruct (Ha pre w post E Hw Hb); lia. }
  destruct (@Rw_keep t _ b _ HR') as [b' [-> HR2]].
  { intros pre w post E Hw Hb.
    destruct (Ha (a ++ pre) w post) as [L | L]; auto.
    - rewrite <- app_assoc, E. reflexivity.
    - rewrite lastc_app. exact Hb.
    - apply Cl_nonempty in Hw. destruct w; [congruence|].
      rewrite length_app in L. simpl in L. lia.
    - rewrite length_app in L. lia. }
  exists a', b'. rewrite lastc_app. auto.
Qed.

Hypothesis Cl_unique :
  forall w1 w2 a1 a2, Cl w1 -> Cl w2 -> w1 ++ a1 = w2 ++ a2 -> w1 = w2.

(** A clause that no earlier clause reaches is replaced. *)
Lemma Rw_replaced prev a w b out :
  Rw Cl Out prev (a ++ w ++ b) out -> Cl w ->
  wordish (lastc prev a) = false -> Clear Cl prev a (w ++ b) ->
  exists a' rep b',
    out = a' ++ rep ++ b' /\ Out w rep
    /\ wordish (lastc prev a') = false
    /\ Rw Cl Out (lastc prev (a ++ w)) b b'.
Proof.
  intros HR Hw Hb Hc.
  destruct (Rw_split HR (a:=a) (b:=w ++ b) eq_refl Hc) as [a' [ob [-> [HR' Hq]]]].
  assert (Hw0 := Cl_nonempty Hw). destruct w as [|c w]; [congruence|].
  simpl in HR'. apply Rw_cons_inv in HR'.
  destruct HR' as [[out' [-> [_ Hno]]]
                  | [w2 [post [rep [out' [E [Hw2 [_ [Ho [-> HR2]]]]]]]]]].
  - specialize (Hno (c :: w) b eq_refl Hw). congruence.
  - change (c :: w ++ b) with ((c :: w) ++ b) in E.
    assert (E2 := Cl_unique _ _ Hw Hw2 E). subst w2.
    apply app_inv_head in E. subst post.
    exists a', rep, out'. rewrite lastc_app. repeat split; auto.
    rewrite Hq; auto.
Qed.

End RwFacts.

Section RwOrigin.

Variable Cl : str -> Prop.
Variable Out : str -> str -> Prop.
Variable Cl' : str -> Prop.

Hypothesis Cl_last : forall w p, Cl w -> wordish (lastc p w) = true.
Hypothesis Out_last : forall w rep p, Out w rep -> wordish (lastc p rep) = true.

(** A clause of the second kind shares no character with a replacement. *)
Hypothesis Disjoint :
  forall p pre w rep rest x m y,
    Cl w -> Out w rep -> Cl' m ->
    pre ++ rep ++ rest = x ++ m ++ y ->
    wordish (lastc p pre) = false -> wordish (lastc p x) = false ->
    length x + length m <= length pre \/ length pre + length rep <= length x.

(** A clause of the second kind that stands in the output stood in the
    input. *)
Lemma Rw_origin prev s out :
  Rw Cl Out prev s out ->
  forall p0 g x m y,
    lastc p0 g = prev -> g ++ out = x ++ m ++ y -> Cl' m ->
    wordish (lastc p0 x) = false ->
    exists x0 y0, g ++ s = x0 ++ m ++ y0 /\ wordish (lastc p0 x0) = false.
Proof.
  induction 1 as [prev | prev c s out Hno HR IH
                  | prev w post rep out Hw Hp Ho HR IH];
    intros p0 g x m y Hg E Hm Hb.
  - exists x, y. auto.
  - destruct (IH p0 (g ++ [c]) x m y) as [x0 [y0 [E0 Hb0]]]; auto.
    + rewrite lastc_app. reflexivity.
    + rewrite <- app_assoc. exact E.
    + exists x0, y0. rewrite <- app_assoc in E0. auto.
  - subst prev.
    destruct (@Disjoint p0 g w rep out x m y Hw Ho Hm E Hp Hb) as [L | L].
    + assert (L' : length x <= length g) by lia.
      symmetry in E. destruct (app_eq_app_le _ _ _ _ E L') as [g1 [Eg E1]].
      assert (L2 : length m <= length g1).
      { rewrite Eg, length_app in L. lia. }
      destruct (app_eq_app_le _ _ _ _ E1 L2) as [g2 [Eg1 _]].
      exists x, (g2 ++ w ++ post). split; auto.
      rewrite Eg, Eg1, <- !app_assoc. reflexivity.
    + assert (L' : length (g ++ rep) <= length x)
        by (rewrite length_app; lia).
      rewrite app_assoc in E.
      destruct (app_eq_app_le _ _ _ _ E L') as [x1 [Ex E1]].
      destruct (IH (lastc (lastc p0 g) w) [] x1 m y) as [x0 [y0 [E0 Hb0]]];
        auto.
      { rewrite Ex, !lastc_app in Hb. rewrite <- Hb.
        apply wordish_lastc. rewrite (Cl_last _ Hw).
        symmetry. apply Out_last with (w := w). exact Ho. }
      simpl in E0. exists (g ++ w ++ x0), y0. split.
      * rewrite E0, <- !app_assoc. reflexivity.
      * rewrite !lastc_app. exact Hb0.
Qed.

End RwOrigin.

Section RwDone.

Variable Cl : str -> Prop.
Variable Out : str -> str -> Prop.

Hypothesis Cl_first : forall w, Cl w -> wordish (hd_error w) = true.
Hypothesis Cl_last : forall w p, Cl w -> wordish (lastc p w) = true.
Hypothesis Out_last : forall w rep p, Out w rep -> wordish (lastc p rep) = true.

Hypothesis Disjoint :
  forall p pre w rep rest x m y,
    Cl w -> Out w rep -> Cl m ->
    pre ++ rep ++ rest = x ++ m ++ y ->
    wordish (lastc p pre) = false -> wordish (lastc p x) = false ->
    length x + length m <= length pre \/ length pre + length rep <= length x.

(** Once the clauses are replaced, none is left. *)
Lemma Rw_done prev s out :
  Rw Cl Out prev s out ->
  forall p0 g,
    lastc p0 g = prev ->
    (forall x m y,
        g ++ s = x ++ m ++ y -> Cl m -> wordish (lastc p0 x) = false ->
        length g <= length x) ->
    forall x m y,
      g ++ out = x ++ m ++ y -> Cl m -> wordish (lastc p0 x) = false -> False.
Proof.
  induction 1 as [prev | prev c s out Hno HR IH
                  | prev w post rep out Hw Hp Ho HR IH];
    intros p0 g Hg Inv x m y E Hm Hb.
  - assert (L := Inv x m y E Hm Hb). apply (f_equal (@length _)) in E.
    rewrite !length_app in E. simpl in E.
    assert (Hm0 := @Cl_nonempty _ Cl_first _ Hm). destruct m; [congruence|].
    simpl in E. lia.
  - apply (IH p0 (g ++ [c])) with (x := x) (m := m) (y := y); auto.
    + rewrite lastc_app. reflexivity.
    + intros x1 m1 y1 E1 Hm1 Hb1. rewrite <- app_assoc in E1. simpl in E1.
      assert (L := Inv x1 m1 y1 E1 Hm1 Hb1). rewrite length_app. simpl.
      destruct (Nat.eq_dec (length x1) (length g)) as [El | Nl]; [|lia].
      exfalso. symmetry in El.
      destruct (app_eq_length _ _ _ _ E1 El) as [-> E2].
      rewrite Hg in Hb1. rewrite (Hno m1 y1 E2 Hm1) in Hb1. discriminate.
    + rewrite <- app_assoc. exact E.
  - subst prev.
    destruct (@Disjoint p0 g w rep out x m y Hw Ho Hm E Hp Hb) as [L | L].
    + assert (L' : length x <= length g) by lia.
      symmetry in E. destruct (app_eq_app_le _ _ _ _ E L') as [g1 [Eg E1]].
      assert (L2 : length m <= length g1).
      { rewrite Eg, length_app in L. lia. }
      destruct (app_eq_app_le _ _ _ _ E1 L2) as [g2 [Eg1 _]].
      assert (L3 := Inv x m (g2 ++ w ++ post)).
      rewrite Eg, Eg1, <- !app_assoc in L3. specialize (L3 eq_refl Hm Hb).
      rewrite !length_app in L3.
      assert (Hm0 := @Cl_nonempty _ Cl_first _ Hm). destruct m; [congruence|].
      simpl in L3. lia.
    + assert (L' : length (g ++ rep) <= length x)
        by (rewrite length_app; lia).
      rewrite app_assoc in E.
      destruct (app_eq_app_le _ _ _ _ E L') as [x1 [Ex E1]].
      apply (IH (lastc (lastc p0 g) w) []) with (x := x1) (m := m) (y := y);
        auto.
      * intros; simpl; lia.
      * rewrite Ex, !lastc_app in Hb. rewrite <- Hb.
        apply wordish_lastc. rewrite (Cl_last _ Hw).
        symmetry. apply Out_last with (w := w). exact Ho.
Qed.

End RwDone.

(* ----------------------------------------------------------------- *)
(** *** Clauses as phrases: where two clauses can meet *)

Lemma word_run_last (x : str) (p : option ascii) :
  x <> [] -> forallb isword x = true -> wordish (lastc p x) = true.
Proof.
  revert p; induction x as [|c x IH]; intros p Hn Hx; [congruence|].
  simpl in Hx. apply andb_true_iff in Hx. destruct Hx as [Hc Hx].
  destruct x as [|d x]; [exact Hc|].
  change (wordish (lastc (Some c) (d :: x)) = true).
  apply IH; [discriminate | exact Hx].
Qed.

Lemma forallb_app_l [X : Type] (f : X -> bool) (a b : list X) :
  forallb f (a ++ b) = true -> forallb f a = true.
Proof. rewrite forallb_app. intros H. apply andb_true_iff in H. apply H. Qed.

Lemma forallb_app_r [X : Type] (f : X -> bool) (a b : list X) :
  forallb f (a ++ b) = true -> forallb f b = true.
Proof. rewrite forallb_app. intros H. apply andb_true_iff in H. apply H. Qed.

Lemma phrase_head (u : str) (rest : list (str * str)) :
  exists tl, phrase u rest = u ++ tl.
Proof.
  destruct rest as [|[s v] rest]; simpl.
  - exists []. symmetry. apply app_nil_r.
  - eexists. reflexivity.
Qed.

Lemma Phrase_word u rest : Phrase u rest -> word1 u.
Proof. destruct rest; simpl; intros H; apply H. Qed.

Lemma phrase_starts_word u rest a :
  Phrase u rest -> wordish (hd_error (phrase u rest ++ a)) = true.
Proof.
  intros H. apply Phrase_word in H. destruct H as [Hn Hu].
  destruct (phrase_head u rest) as [tl ->].
  destruct u as [|c u]; [congruence|]. simpl in *.
  apply andb_true_iff in Hu. apply Hu.
Qed.

Lemma phrase_nonempty u rest : Phrase u rest -> phrase u rest <> [].
Proof.
  intros H E. apply (@phrase_starts_word _ _ []) in H.
  rewrite E in H. discriminate.
Qed.

(** A word that starts inside a phrase is one of its words. *)
Lemma word_start_in_phrase (rest : list (str * str)) :
  forall u x y p,
    Phrase u rest -> phrase u rest = x ++ y ->
    wordish (lastc p x) = false -> wordish (hd_error y) = true ->
    exists u' r', In (u', r') (tails u rest) /\ y = phrase u' r'.
Proof.
  induction rest as [|[s v] rest IH]; intros u x y p HP E Hx Hy.
  - simpl in *. destruct HP as [[Hn Hu] _].
    destruct x as [|c x].
    + exists u, []. simpl in *. auto.
    + exfalso. subst u.
      rewrite (@word_run_last (c :: x) p) in Hx; [discriminate..|].
      apply forallb_app_l in Hu. exact Hu.
  - cbn [phrase Phrase] in *. destruct HP as [[Hn Hu] [[Hsn Hs] HP]].
    destruct x as [|c x].
    + exists u, ((s, v) :: rest). simpl in *. auto.
    + destruct (le_lt_dec (length (c :: x)) (length u)) as [L | L].
      { exfalso. symmetry in E.
        destruct (app_eq_app_le _ _ _ _ E L) as [m [Eu _]]. subst u.
        rewrite (@word_run_last (c :: x) p) in Hx; [discriminate..|].
        apply forallb_app_l in Hu. exact Hu. }
      destruct (app_eq_app_le _ _ _ _ E (Nat.lt_le_incl _ _ L))
        as [x1 [Ex E1]].
      destruct (le_lt_dec (length s) (length x1)) as [L1 | L1].
      * destruct (app_eq_app_le _ _ _ _ E1 L1) as [x2 [Ex1 E2]].
        destruct (IH v x2 y (lastc p (u ++ s)) HP E2) as [u' [r' [Hin Ey]]];
          auto.
        { rewrite Ex, Ex1, app_assoc, lastc_app in Hx. exact Hx. }
        exists u', r'. split; [right; exact Hin | exact Ey].
      * exfalso. symmetry in E1.
        destruct (app_eq_app_le _ _ _ _ E1 (Nat.lt_le_incl _ _ L1))
          as [m [Es Ey]].
        subst s. destruct m as [|d m];
          [rewrite app_nil_r in L1; lia|].
        subst y. simpl in Hy. apply forallb_app_r in Hs. simpl in Hs.
        apply andb_true_iff in Hs. destruct Hs as [Hd _].
        rewrite (space_not_word _ Hd) in Hy. discriminate.
Qed.


(** Two runs of one class that start together and both stop are equal. *)
Lemma run_eq (f : ascii -> bool) (u : str) :
  forall v a b,
    forallb f u = true -> forallb f v = true -> u ++ a = v ++ b ->
    stops f a -> stops f b -> u = v /\ a = b.
Proof.
  induction u as [|c u IH]; intros [|d v] a b Hu Hv E Ha Hb; simpl in *.
  - auto.
  - subst a. simpl in Ha. apply andb_true_iff in Hv. destruct Hv; congruence.
  - subst b. simpl in Hb. apply andb_true_iff in Hu. destruct Hu; congruence.
  - inversion E; subst d. apply andb_true_iff in Hu, Hv.
    destruct (IH v a b) as [-> ->]; auto; apply Hu || apply Hv.
Qed.

Lemma stops_word_spaces (s a : str) : spaces1 s -> stops isword (s ++ a).
Proof.
  intros [Hn Hs]. destruct s as [|c s]; [congruence|]. simpl in *.
  apply andb_true_iff in Hs. apply space_not_word. apply Hs.
Qed.

Lemma stops_space_phrase u rest a :
  Phrase u rest -> stops isspace (phrase u rest ++ a).
Proof.
  intros H. apply (@phrase_starts_word _ _ a) in H.
  destruct (phrase u rest ++ a) as [|c x]; simpl in *; auto.
  apply word_not_space. exact H.
Qed.

(** Two phrases that start together go on together. *)
Lemma aligned_cons u s u2 r v t v2 q a b :
  Phrase u ((s, u2) :: r) -> Phrase v ((t, v2) :: q) ->
  phrase u ((s, u2) :: r) ++ a = phrase v ((t, v2) :: q) ++ b ->
  u = v /\ s = t /\ phrase u2 r ++ a = phrase v2 q ++ b.
Proof.
  cbn [phrase Phrase]. intros [[_ Hu] [Hs HP]] [[_ Hv] [Ht HQ]] E.
  rewrite <- !app_assoc in E.
  destruct (@run_eq isword u v _ _ Hu Hv E) as [-> E1].
  { apply stops_word_spaces. exact Hs. }
  { apply stops_word_spaces. exact Ht. }
  destruct (@run_eq isspace s t _ _ (proj2 Hs) (proj2 Ht) E1) as [-> E2].
  { apply stops_space_phrase. exact HP. }
  { apply stops_space_phrase. exact HQ. }
  auto.
Qed.

Lemma aligned_hd u r v q a b :
  Phrase u r -> Phrase v q -> phrase u r ++ a = phrase v q ++ b ->
  exists c u' v', u = c :: u' /\ v = c :: v'.
Proof.
  intros HP HQ E. apply Phrase_word in HP, HQ.
  destruct (phrase_head u r) as [x Ex]. destruct (phrase_head v q) as [y Ey].
  rewrite Ex, Ey in E. destruct HP as [Hu _]. destruct HQ as [Hv _].
  destruct u as [|c u]; [congruence|]. destruct v as [|d v]; [congruence|].
  simpl in E. inversion E; subst. eauto.
Qed.

Lemma overlap_after u r v q pre1 rest1 pre2 rest2 p :
  Phrase u r -> Phrase v q ->
  pre1 ++ phrase u r ++ rest1 = pre2 ++ phrase v q ++ rest2 ->
  wordish (lastc p pre2) = false ->
  length pre1 <= length pre2 ->
  length pre1 + length (phrase u r) <= length pre2
  \/ exists d u' r',
       pre2 = pre1 ++ d /\ In (u', r') (tails u r)
       /\ phrase u r = d ++ phrase u' r'
       /\ phrase u' r' ++ rest1 = phrase v q ++ rest2.
Proof.
  intros HP HQ E Hb L.
  destruct (app_eq_app_le _ _ _ _ E L) as [d [-> E1]].
  destruct (le_lt_dec (length (phrase u r)) (length d)) as [L1 | L1].
  - left. rewrite length_app. lia.
  - right. symmetry in E1.
    destruct (app_eq_app_le _ _ _ _ E1 (Nat.lt_le_incl _ _ L1))
      as [y [Ey E2]].
    rewrite lastc_app in Hb.
    destruct (@word_start_in_phrase r u d y (lastc p pre1) HP Ey Hb)
      as [u' [r' [Hin ->]]].
    + destruct y as [|c y]; [rewrite Ey, app_nil_r in L1; lia|].
      assert (H := @phrase_starts_word _ _ rest2 HQ). rewrite E2 in H.
      exact H.
    + exists d, u', r'. auto.
Qed.

(** Two phrases that stand at word boundaries of one text are apart, or
    one starts at a word of the other. *)
Lemma phrases_overlap u r v q pre1 rest1 pre2 rest2 p :
  Phrase u r -> Phrase v q ->
  pre1 ++ phrase u r ++ rest1 = pre2 ++ phrase v q ++ rest2 ->
  wordish (lastc p pre1) = false -> wordish (lastc p pre2) = false ->
  length pre1 + length (phrase u r) <= length pre2
  \/ length pre2 + length (phrase v q) <= length pre1
  \/ (exists d u' r',
         pre2 = pre1 ++ d /\ In (u', r') (tails u r)
         /\ phrase u r = d ++ phrase u' r'
         /\ phrase u' r' ++ rest1 = phrase v q ++ rest2)
  \/ (exists d v' q',
         pre1 = pre2 ++ d /\ In (v', q') (tails v q)
         /\ phrase v q = d ++ phrase v' q'
         /\ phrase v' q' ++ rest2 = phrase u r ++ rest1).
Proof.
  intros HP HQ E H1 H2.
  destruct (le_lt_dec (length pre1) (length pre2)) as [L | L].
  - destruct (@overlap_after _ _ _ _ _ _ _ _ p HP HQ E H2 L) as [D | D]; auto.
  - symmetry in E.
    destruct (@overlap_after _ _ _ _ _ _ _ _ p HQ HP E H1
                (Nat.lt_le_incl _ _ L)) as [D | D];
      auto.
Qed.


Lemma ci_word1 (x y : str) : ci x y -> word1 y -> word1 x.
Proof.
  unfold ci. intros E [Hn Hy]. split.
  - intros ->. destruct y; [congruence | discriminate].
  - assert (H : forallb isword (lower x) = true).
    { rewrite E. clear E Hn. induction y as [|c y IH]; simpl in *; auto.
      apply andb_true_iff in Hy. destruct Hy as [Hc Hy].
      rewrite isword_lower, Hc. simpl. auto. }
    clear E. induction x as [|c x IH]; simpl in *; auto.
    apply andb_true_iff in H. destruct H as [Hc Hx].
    rewrite isword_lower in Hc. rewrite Hc. simpl. auto.
Qed.

Lemma ci_sym (x y : str) : ci x y -> ci y x.
Proof. unfold ci. auto. Qed.

Lemma ci_trans (x y z : str) : ci x y -> ci y z -> ci x z.
Proof. unfold ci. congruence. Qed.

Lemma word1_entity : word1 (lit "entity").
Proof. split; [discriminate | reflexivity]. Qed.
Lemma word1_architecture : word1 (lit "architecture").
Proof. split; [discriminate | reflexivity]. Qed.
Lemma word1_of : word1 (lit "of").
Proof. split; [discriminate | reflexivity]. Qed.
Lemma word1_is : word1 (lit "is").
Proof. split; [discriminate | reflexivity]. Qed.

(** The clauses as phrases. *)
Lemma entity_text_phrase (x w : str) :
  word1 x -> entity_text x w ->
  exists e s1 n s2 i,
    w = phrase e [(s1, n); (s2, i)] /\ Phrase e [(s1, n); (s2, i)]
    /\ ci e (lit "entity") /\ ci n x /\ ci i (lit "is").
Proof.
  intros Hx [n [Hn [e [s1 [s2 [i [-> [He [Hs1 [Hs2 Hi]]]]]]]]]].
  exists e, s1, n, s2, i. repeat split; auto;
    try apply Hs1; try apply Hs2;
    try apply (ci_word1 He word1_entity);
    try apply (ci_word1 Hn Hx); try apply (ci_word1 Hi word1_is).
Qed.

Lemma architecture_text_phrase (x w : str) :
  word1 x -> architecture_text x w ->
  exists a s1 id s2 o s3 n s4 i,
    w = phrase a [(s1, id); (s2, o); (s3, n); (s4, i)]
    /\ Phrase a [(s1, id); (s2, o); (s3, n); (s4, i)]
    /\ ci a (lit "architecture") /\ ci o (lit "of") /\ ci n x
    /\ ci i (lit "is").
Proof.
  intros Hx [id [n [Hn [a [s1 [s2 [o [s3 [s4 [i
    [-> [Ha [Hs1 [Hid [Hs2 [Ho [Hs3 [Hs4 Hi]]]]]]]]]]]]]]]]]].
  exists a, s1, id, s2, o, s3, n, s4, i. repeat split; auto;
    try apply Hs1; try apply Hs2; try apply Hs3; try apply Hs4;
    try apply Hid; try apply (ci_word1 Ha word1_architecture);
    try apply (ci_word1 Ho word1_of);
    try apply (ci_word1 Hn Hx); try apply (ci_word1 Hi word1_is).
Qed.

Lemma self_prefix_nil [X : Type] (d w : list X) : w = d ++ w -> d = [].
Proof.
  intros E. apply (f_equal (@length _)) in E. rewrite length_app in E.
  destruct d; [reflexivity | simpl in E; lia].
Qed.

(** Two last words equal to one keyword up to case, starting together. *)
Lemma aligned_last (k i1 i2 a b : str) :
  ci i1 k -> ci i2 k -> i1 ++ a = i2 ++ b -> i1 = i2 /\ a = b.
Proof.
  intros H1 H2 E. apply app_eq_length; auto.
  rewrite (lower_eq_length _ _ H1), (lower_eq_length _ _ H2). reflexivity.
Qed.

Ltac norm_ci :=
  unfold ci in *;
  repeat match goal with
  | H : context [lower (lit ?k)] |- _ =>
      let v := eval vm_compute in (lower (lit k)) in
      change (lower (lit k)) with v in H
  end.

(** Contradictory readings of one word. *)
Ltac clash := norm_ci; subst; simpl in *; congruence.

(** One step along two phrases that start together. *)
Ltac align E :=
  match type of E with
  | phrase ?u ((?s, ?u2) :: ?r) ++ ?a = phrase ?v ((?t, ?v2) :: ?q) ++ ?b =>
      let Eu := fresh "Eu" in
      let Es := fresh "Es" in
      let E2 := fresh "Ea" in
      destruct (@aligned_cons u s u2 r v t v2 q a b) as [Eu [Es E2]];
      [simpl in *; tauto | simpl in *; tauto | exact E |]
  end.

Ltac align_hd E :=
  match type of E with
  | phrase ?u ?r ++ ?a = phrase ?v ?q ++ ?b =>
      let c := fresh "c" in
      let u' := fresh "u" in
      let v' := fresh "v" in
      let Eu := fresh "Eu" in
      let Ev := fresh "Ev" in
      destruct (@aligned_hd u r v q a b) as [c [u' [v' [Eu Ev]]]];
      [simpl in *; tauto | simpl in *; tauto | exact E |]
  end.

Lemma EE_after x y p pre1 w1 rest1 pre2 w2 rest2 :
  plain_name x -> word1 y ->
  entity_text x w1 -> entity_text y w2 ->
  pre1 ++ w1 ++ rest1 = pre2 ++ w2 ++ rest2 ->
  wordish (lastc p pre2) = false -> length pre1 <= length pre2 ->
  length pre1 + length w1 <= length pre2
  \/ (pre1 = pre2 /\ ci x y /\ w1 = w2).
Proof.
  intros [Hx [Xe [Xa Xo]]] Hy H1 H2 E Hb L.
  destruct (entity_text_phrase Hx H1)
    as [e1 [s1 [n1 [s2 [i1 [-> [P1 [He1 [Hn1 Hi1]]]]]]]]].
  destruct (entity_text_phrase Hy H2)
    as [e2 [t1 [n2 [t2 [i2 [-> [P2 [He2 [Hn2 Hi2]]]]]]]]].
  destruct (@overlap_after _ _ _ _ _ _ _ _ p P1 P2 E Hb L)
    as [D | [d [u' [r' [Ep [Hin [Ed Ea]]]]]]]; [left; exact D | right].
  cbn [tails In] in Hin.
  destruct Hin as [Hin | [Hin | [Hin | []]]]; inversion Hin; subst u' r';
    clear Hin.
  - apply self_prefix_nil in Ed. subst d. rewrite app_nil_r in Ep.
    align Ea. align Ea0. cbn [phrase] in Ea1.
    destruct (@aligned_last _ _ _ _ _ Hi1 Hi2 Ea1) as [Ei _].
    subst. repeat split; auto.
    apply ci_trans with (y := n2); [apply ci_sym|]; assumption.
  - exfalso. align Ea. clash.
  - exfalso. align_hd Ea. clash.
Qed.

Lemma EA_after x y p pre1 w1 rest1 pre2 w2 rest2 :
  plain_name x -> word1 y ->
  entity_text x w1 -> architecture_text y w2 ->
  pre1 ++ w1 ++ rest1 = pre2 ++ w2 ++ rest2 ->
  wordish (lastc p pre2) = false -> length pre1 <= length pre2 ->
  length pre1 + length w1 <= length pre2.
Proof.
  intros [Hx [Xe [Xa Xo]]] Hy H1 H2 E Hb L.
  destruct (entity_text_phrase Hx H1)
    as [e1 [s1 [n1 [s2 [i1 [-> [P1 [He1 [Hn1 Hi1]]]]]]]]].
  destruct (architecture_text_phrase Hy H2)
    as [a2 [t1 [id2 [t2 [o2 [t3 [n2 [t4 [i2
         [-> [P2 [Ha2 [Ho2 [Hn2 Hi2]]]]]]]]]]]]]].
  destruct (@overlap_after _ _ _ _ _ _ _ _ p P1 P2 E Hb L)
    as [D | [d [u' [r' [Ep [Hin [Ed Ea]]]]]]]; [exact D | exfalso].
  cbn [tails In] in Hin.
  destruct Hin as [Hin | [Hin | [Hin | []]]]; inversion Hin; subst u' r';
    clear Hin.
  - align Ea. clash.
  - align Ea. clash.
  - align_hd Ea. clash.
Qed.

Lemma AE_after x y p pre1 w1 rest1 pre2 w2 rest2 :
  plain_name x -> plain_name y ->
  architecture_text x w1 -> entity_text y w2 ->
  pre1 ++ w1 ++ rest1 = pre2 ++ w2 ++ rest2 ->
  wordish (lastc p pre2) = false -> length pre1 <= length pre2 ->
  length pre1 + length w1 <= length pre2.
Proof.
  intros [Hx [Xe [Xa Xo]]] [Hy [Ye [Ya Yo]]] H1 H2 E Hb L.
  destruct (architecture_text_phrase Hx H1)
    as [a1 [s1 [id1 [s2 [o1 [s3 [n1 [s4 [i1
         [-> [P1 [Ha1 [Ho1 [Hn1 Hi1]]]]]]]]]]]]]].
  destruct (entity_text_phrase Hy H2)
    as [e2 [t1 [n2 [t2 [i2 [-> [P2 [He2 [Hn2 Hi2]]]]]]]]].
  destruct (@overlap_after _ _ _ _ _ _ _ _ p P1 P2 E Hb L)
    as [D | [d [u' [r' [Ep [Hin [Ed Ea]]]]]]]; [exact D | exfalso].
  cbn [tails In] in Hin.
  destruct Hin as [Hin | [Hin | [Hin | [Hin | [Hin | []]]]]];
    inversion Hin; subst u' r'; clear Hin.
  - align Ea. clash.
  - align Ea. align Ea0. clash.
  - align Ea. clash.
  - align Ea. clash.
  - align_hd Ea. clash.
Qed.

Lemma AA_after x y p pre1 w1 rest1 pre2 w2 rest2 :
  plain_name x -> word1 y ->
  architecture_text x w1 -> architecture_text y w2 ->
  pre1 ++ w1 ++ rest1 = pre2 ++ w2 ++ rest2 ->
  wordish (lastc p pre2) = false -> length pre1 <= length pre2 ->
  length pre1 + length w1 <= length pre2
  \/ (pre1 = pre2 /\ ci x y /\ w1 = w2).
Proof.
  intros [Hx [Xe [Xa Xo]]] Hy H1 H2 E Hb L.
  destruct (architecture_text_phrase Hx H1)
    as [a1 [s1 [id1 [s2 [o1 [s3 [n1 [s4 [i1
         [-> [P1 [Ha1 [Ho1 [Hn1 Hi1]]]]]]]]]]]]]].
  destruct (architecture_text_phrase Hy H2)
    as [a2 [t1 [id2 [t2 [o2 [t3 [n2 [t4 [i2
         [-> [P2 [Ha2 [Ho2 [Hn2 Hi2]]]]]]]]]]]]]].
  destruct (@overlap_after _ _ _ _ _ _ _ _ p P1 P2 E Hb L)
    as [D | [d [u' [r' [Ep [Hin [Ed Ea]]]]]]]; [left; exact D | right].
  cbn [tails In] in Hin.
  destruct Hin as [Hin | [Hin | [Hin | [Hin | [Hin | []]]]]];
    inversion Hin; subst u' r'; clear Hin.
  - apply self_prefix_nil in Ed. subst d. rewrite app_nil_r in Ep.
    align Ea. align Ea0. align Ea1. align Ea2. cbn [phrase] in Ea3.
    destruct (@aligned_last _ _ _ _ _ Hi1 Hi2 Ea3) as [Ei _].
    subst. repeat split; auto.
    apply ci_trans with (y := n2); [apply ci_sym|]; assumption.
  - exfalso. align Ea. align Ea0. align Ea1. clash.
  - exfalso. align Ea. clash.
  - exfalso. align Ea. clash.
  - exfalso. align_hd Ea. clash.
Qed.

(* ----------------------------------------------------------------- *)
(** *** The replacement templates *)

Lemma word_not_backslash (c : ascii) :
  isword c = true -> negb (Ascii.eqb c backslash) = true.
Proof. by_cases_on_char c. Qed.

Lemma parse_tmpl_literal (groups : nat) (a : str) :
  forall s,
    forallb (fun c => negb (Ascii.eqb c backslash)) a = true ->
    parse_tmpl groups None (a ++ s)
    = option_map (app (map TLit a)) (parse_tmpl groups None s).
Proof.
  induction a as [|c a IH]; intros s H.
  - simpl. destruct (parse_tmpl groups None s); reflexivity.
  - simpl in H. apply andb_true_iff in H. destruct H as [Hc Ha].
    cbn [app parse_tmpl]. rewrite Hc, IH by exact Ha.
    destruct (parse_tmpl groups None s); reflexivity.
Qed.

Lemma word_no_backslash (n : str) :
  forallb isword n = true ->
  forallb (fun c => negb (Ascii.eqb c backslash)) n = true.
Proof.
  induction n as [|c n IH]; simpl; auto. intros H.
  apply andb_true_iff in H. destruct H as [Hc Hn].
  rewrite (word_not_backslash _ Hc). auto.
Qed.

Lemma expand_literal (s w : str) (cs : caps) : expand (map TLit s) w cs = s.
Proof. unfold expand. induction s; simpl; congruence. Qed.

Lemma expand_app (t1 t2 : list titem) (w : str) (cs : caps) :
  expand (t1 ++ t2) w cs = expand t1 w cs ++ expand t2 w cs.
Proof. unfold expand. apply flat_map_app. Qed.

Lemma parse_tmpl_text (groups : nat) (a : str) :
  forallb (fun c => negb (Ascii.eqb c backslash)) a = true ->
  parse_tmpl groups None a = Some (map TLit a).
Proof.
  intros H. rewrite <- (app_nil_r a) at 1. rewrite parse_tmpl_literal by exact H.
  simpl. rewrite app_nil_r. reflexivity.
Qed.

Lemma parse_tmpl_group_1 (s : str) :
  parse_tmpl 1 None (backslash :: "1"%char :: " "%char :: s)
  = tcons (TRef 1) (parse_tmpl 1 None (" "%char :: s)).
Proof. reflexivity. Qed.

Lemma parse_entity_template (groups : nat) (n : str) :
  word1 n ->
  parse_template groups (lit "entity " ++ n ++ lit " is")
  = Some (map TLit (lit "entity " ++ n ++ lit " is")).
Proof.
  intros [_ Hn]. apply parse_tmpl_text.
  rewrite !forallb_app, (word_no_backslash _ Hn). reflexivity.
Qed.

Lemma parse_architecture_template (n : str) :
  word1 n ->
  parse_template 1 (lit "architecture \1 of " ++ n ++ lit " is")
  = Some (map TLit (lit "architecture ")
          ++ TRef 1 :: map TLit (lit " of " ++ n ++ lit " is")).
Proof.
  intros [_ Hn]. unfold parse_template.
  change (lit "architecture \1 of " ++ n ++ lit " is")
    with (lit "architecture "
          ++ backslash :: "1"%char :: " "%char :: lit "of " ++ n ++ lit " is").
  rewrite parse_tmpl_literal by reflexivity.
  rewrite parse_tmpl_group_1.
  change (" "%char :: lit "of " ++ n ++ lit " is")
    with (lit " of " ++ n ++ lit " is").
  rewrite parse_tmpl_text; [reflexivity|].
  rewrite !forallb_app, (word_no_backslash _ Hn). reflexivity.
Qed.

(* ----------------------------------------------------------------- *)
(** *** The two substitutions as rewritings *)

Lemma phrase_last (r : list (str * str)) :
  forall u p, Phrase u r -> wordish (lastc p (phrase u r)) = true.
Proof.
  induction r as [|[s v] r IH]; intros u p HP; cbn [phrase Phrase] in *.
  - destruct HP as [[Hn Hu] _]. apply word_run_last; auto.
  - destruct HP as [_ [_ HP]]. rewrite !lastc_app. apply IH. exact HP.
Qed.

Lemma entity_text_first x :
  word1 x -> forall w, entity_text x w -> wordish (hd_error w) = true.
Proof.
  intros Hx w H. destruct (entity_text_phrase Hx H)
    as [e [s1 [n [s2 [i [-> [P _]]]]]]].
  rewrite <- (app_nil_r (phrase _ _)). apply phrase_starts_word. exact P.
Qed.

Lemma entity_text_last x :
  word1 x -> forall w p, entity_text x w -> wordish (lastc p w) = true.
Proof.
  intros Hx w p H. destruct (entity_text_phrase Hx H)
    as [e [s1 [n [s2 [i [-> [P _]]]]]]].
  apply phrase_last. exact P.
Qed.

Lemma architecture_text_first x :
  word1 x ->
  forall w, architecture_text x w -> wordish (hd_error w) = true.
Proof.
  intros Hx w H. destruct (architecture_text_phrase Hx H)
    as [a [s1 [id [s2 [o [s3 [n [s4 [i [-> [P _]]]]]]]]]]].
  rewrite <- (app_nil_r (phrase _ _)). apply phrase_starts_word. exact P.
Qed.

Lemma architecture_text_last x :
  word1 x ->
  forall w p, architecture_text x w -> wordish (lastc p w) = true.
Proof.
  intros Hx w p H. destruct (architecture_text_phrase Hx H)
    as [a [s1 [id [s2 [o [s3 [n [s4 [i [-> [P _]]]]]]]]]]].
  apply phrase_last. exact P.
Qed.

Lemma entity_out_last new :
  forall w rep p, entity_out new w rep -> wordish (lastc p rep) = true.
Proof. intros w rep p ->. rewrite !lastc_app. reflexivity. Qed.

Lemma architecture_out_last old new :
  forall w rep p,
    architecture_out old new w rep -> wordish (lastc p rep) = true.
Proof. intros w rep p [id [n [_ [_ ->]]]]. rewrite !lastc_app. reflexivity. Qed.

(** The replacements are clauses that read the new name. *)
Lemma entity_out_text new w rep :
  entity_out new w rep -> entity_text new rep.
Proof.
  intros ->. exists new. split; [reflexivity|].
  exists (lit "entity"), (lit " "), (lit " "), (lit "is").
  repeat split; try discriminate; reflexivity.
Qed.

Lemma architecture_out_text old new w rep :
  architecture_out old new w rep -> architecture_text new rep.
Proof.
  intros [id [n [_ [[a [s1 [s2 [o [s3 [s4 [i [_ [_ [_ [Hid _]]]]]]]]]]] ->]]]].
  exists id, new. split; [reflexivity|].
  exists (lit "architecture"), (lit " "), (lit " "), (lit "of"), (lit " "),
    (lit " "), (lit "is").
  repeat split; try discriminate; try reflexivity; apply Hid.
Qed.

Section Renaming.

Variables old new : str.
Hypothesis Hold : word1 old.
Hypothesis Hnew : word1 new.

Lemma re_sub_entity (s : str) :
  exists out,
    re_sub true (entity_of_re old) (lit "entity " ++ new ++ lit " is") s
    = Some out
    /\ Rw (entity_text old) (entity_out new) None s out.
Proof.
  unfold re_sub. rewrite (parse_entity_template _ Hnew).
  eexists. split; [reflexivity|].
  apply (@sub_out_Rw (entity_of_re old) _ (entity_text old) (entity_out new))
    with (n := length s); [| |apply Nat.le_refl].
  - intros p s' n cs H. apply match_here_sound in H.
    destruct H as [w [rest [-> [-> [HM _]]]]].
    apply Matches_entity_of in HM. destruct HM as [Hp [Hw _]].
    exists w, rest. repeat split; auto.
    + intros ->. apply (entity_text_first Hold) in Hw. discriminate.
    + unfold entity_out. apply expand_literal.
  - intros p w post Hp Hw.
    apply (@match_here_complete true _ p w post [] []).
    apply Matches_entity_of. auto.
Qed.

Lemma re_sub_architecture (s : str) :
  exists out,
    re_sub true (architecture_of_re old)
      (lit "architecture \1 of " ++ new ++ lit " is") s
    = Some out
    /\ Rw (architecture_text old) (architecture_out old new) None s out.
Proof.
  unfold re_sub.
  assert (G : ngroups (architecture_of_re old) = 1).
  { unfold architecture_of_re. cbn [seq ngroups].
    assert (W : forall u, ngroups (word u) = 0).
    { induction u; simpl; auto. }
    rewrite !W. reflexivity. }
  rewrite G, (parse_architecture_template Hnew).
  eexists. split; [reflexivity|].
  apply (@sub_out_Rw (architecture_of_re old) _ (architecture_text old)
           (architecture_out old new))
    with (n := length s); [| |apply Nat.le_refl].
  - intros p s' n cs H. apply match_here_sound in H.
    destruct H as [w [rest [-> [-> [HM _]]]]].
    apply Matches_architecture_of in HM.
    destruct HM as [Hp [id [m [Hm [Hw ->]]]]].
    assert (Ht : architecture_text old w) by (exists id, m; auto).
    exists w, rest. repeat split; auto.
    + intros ->. apply (architecture_text_first Hold) in Ht. discriminate.
    + exists id, m. repeat split; auto.
      rewrite expand_app, expand_literal. cbn [expand flat_map expand_item].
      fold (expand (map TLit (lit " of " ++ new ++ lit " is")) w [(1, id)]).
      rewrite expand_literal. reflexivity.
  - intros p w post Hp [id [m [Hm Hw]]].
    apply (@match_here_complete true _ p w post [] [(1, id)]).
    apply Matches_architecture_of. split; auto. exists id, m. auto.
Qed.

End Renaming.

(* ----------------------------------------------------------------- *)
(** *** Clauses of different names stand apart *)

Lemma apart_EE x y p pre1 w1 rest1 pre2 w2 rest2 :
  plain_name x -> plain_name y -> ~ ci x y ->
  entity_text x w1 -> entity_text y w2 ->
  pre1 ++ w1 ++ rest1 = pre2 ++ w2 ++ rest2 ->
  wordish (lastc p pre1) = false -> wordish (lastc p pre2) = false ->
  length pre1 + length w1 <= length pre2
  \/ length pre2 + length w2 <= length pre1.
Proof.
  intros Hx Hy Hd H1 H2 E B1 B2.
  destruct (le_lt_dec (length pre1) (length pre2)) as [L | L].
  - destruct (@EE_after x y p _ _ _ _ _ _ Hx (proj1 Hy) H1 H2 E B2 L)
      as [D | [_ [C _]]]; [left; exact D | contradiction].
  - symmetry in E.
    destruct (@EE_after y x p _ _ _ _ _ _ Hy (proj1 Hx) H2 H1 E B1
                (Nat.lt_le_incl _ _ L))
      as [D | [_ [C _]]]; [right; exact D | apply ci_sym in C; contradiction].
Qed.

Lemma apart_AA x y p pre1 w1 rest1 pre2 w2 rest2 :
  plain_name x -> plain_name y -> ~ ci x y ->
  architecture_text x w1 -> architecture_text y w2 ->
  pre1 ++ w1 ++ rest1 = pre2 ++ w2 ++ rest2 ->
  wordish (lastc p pre1) = false -> wordish (lastc p pre2) = false ->
  length pre1 + length w1 <= length pre2
  \/ length pre2 + length w2 <= length pre1.
Proof.
  intros Hx Hy Hd H1 H2 E B1 B2.
  destruct (le_lt_dec (length pre1) (length pre2)) as [L | L].
  - destruct (@AA_after x y p _ _ _ _ _ _ Hx (proj1 Hy) H1 H2 E B2 L)
      as [D | [_ [C _]]]; [left; exact D | contradiction].
  - symmetry in E.
    destruct (@AA_after y x p _ _ _ _ _ _ Hy (proj1 Hx) H2 H1 E B1
                (Nat.lt_le_incl _ _ L))
      as [D | [_ [C _]]]; [right; exact D | apply ci_sym in C; contradiction].
Qed.

Lemma apart_EA x y p pre1 w1 rest1 pre2 w2 rest2 :
  plain_name x -> plain_name y ->
  entity_text x w1 -> architecture_text y w2 ->
  pre1 ++ w1 ++ rest1 = pre2 ++ w2 ++ rest2 ->
  wordish (lastc p pre1) = false -> wordish (lastc p pre2) = false ->
  length pre1 + length w1 <= length pre2
  \/ length pre2 + length w2 <= length pre1.
Proof.
  intros Hx Hy H1 H2 E B1 B2.
  destruct (le_lt_dec (length pre1) (length pre2)) as [L | L].
  - left. exact (@EA_after x y p _ _ _ _ _ _ Hx (proj1 Hy) H1 H2 E B2 L).
  - right. symmetry in E.
    exact (@AE_after y x p _ _ _ _ _ _ Hy Hx H2 H1 E B1
             (Nat.lt_le_incl _ _ L)).
Qed.

(** At one place a clause reads one text. *)
Lemma entity_text_unique x :
  plain_name x ->
  forall w1 w2 a1 a2,
    entity_text x w1 -> entity_text x w2 -> w1 ++ a1 = w2 ++ a2 -> w1 = w2.
Proof.
  intros Hx w1 w2 a1 a2 H1 H2 E.
  destruct (@EE_after x x None [] w1 a1 [] w2 a2 Hx (proj1 Hx) H1 H2 E
              eq_refl (Nat.le_refl _)) as [D | [_ [_ C]]]; [|exact C].
  apply (entity_text_first (proj1 Hx)) in H1.
  destruct w1; [discriminate | simpl in D; lia].
Qed.

Lemma architecture_text_unique x :
  plain_name x ->
  forall w1 w2 a1 a2,
    architecture_text x w1 -> architecture_text x w2 ->
    w1 ++ a1 = w2 ++ a2 -> w1 = w2.
Proof.
  intros Hx w1 w2 a1 a2 H1 H2 E.
  destruct (@AA_after x x None [] w1 a1 [] w2 a2 Hx (proj1 Hx) H1 H2 E
              eq_refl (Nat.le_refl _)) as [D | [_ [_ C]]]; [|exact C].
  apply (architecture_text_first (proj1 Hx)) in H1.
  destruct w1; [discriminate | simpl in D; lia].
Qed.

(** No clause reaches a later clause of the same name. *)
Lemma entity_text_clear x p a w b :
  plain_name x -> entity_text x w -> wordish (lastc p a) = false ->
  Clear (entity_text x) p a (w ++ b).
Proof.
  intros Hx Hw Hb pre w' post E Hw' Hp L. symmetry in E.
  destruct (@EE_after x x p _ _ _ _ _ _ Hx (proj1 Hx) Hw' Hw E Hb
              (Nat.lt_le_incl _ _ L)) as [D | [C _]]; [exact D|].
  subst pre. lia.
Qed.

Lemma architecture_text_clear x p a w b :
  plain_name x -> architecture_text x w -> wordish (lastc p a) = false ->
  Clear (architecture_text x) p a (w ++ b).
Proof.
  intros Hx Hw Hb pre w' post E Hw' Hp L. symmetry in E.
  destruct (@AA_after x x p _ _ _ _ _ _ Hx (proj1 Hx) Hw' Hw E Hb
              (Nat.lt_le_incl _ _ L)) as [D | [C _]]; [exact D|].
  subst pre. lia.
Qed.

(* ----------------------------------------------------------------- *)
(** *** What the rewriting does to the declarations *)

Lemma architecture_named_phrase (id n w : str) :
  word1 n -> architecture_named id n w ->
  exists a s1 s2 o s3 s4 i,
    w = phrase a [(s1, id); (s2, o); (s3, n); (s4, i)]
    /\ Phrase a [(s1, id); (s2, o); (s3, n); (s4, i)]
    /\ ci a (lit "architecture") /\ ci o (lit "of") /\ ci i (lit "is").
Proof.
  intros Hn [a [s1 [s2 [o [s3 [s4 [i
    [-> [Ha [Hs1 [Hid [Hs2 [Ho [Hs3 [Hs4 Hi]]]]]]]]]]]]]]].
  exists a, s1, s2, o, s3, s4, i. split; [reflexivity|].
  cbn [Phrase].
  assert (Wa := @ci_word1 _ _ Ha word1_architecture).
  assert (Wo := @ci_word1 _ _ Ho word1_of).
  assert (Wi := @ci_word1 _ _ Hi word1_is).
  tauto.
Qed.

Lemma architecture_named_id (x id1 n1 id2 n2 w : str) :
  word1 x -> ci n1 x -> ci n2 x ->
  architecture_named id1 n1 w -> architecture_named id2 n2 w -> id1 = id2.
Proof.
  intros Hx C1 C2 H1 H2.
  apply (architecture_named_phrase (@ci_word1 _ _ C1 Hx)) in H1.
  apply (architecture_named_phrase (@ci_word1 _ _ C2 Hx)) in H2.
  destruct H1 as [a [s1 [s2 [o [s3 [s4 [i [E1 [P1 _]]]]]]]]].
  destruct H2 as [a2 [t1 [t2 [o2 [t3 [t4 [i2 [E2 [P2 _]]]]]]]]].
  assert (E : phrase a [(s1, id1); (s2, o); (s3, n1); (s4, i)] ++ []
              = phrase a2 [(t1, id2); (t2, o2); (t3, n2); (t4, i2)] ++ []).
  { rewrite !app_nil_r. congruence. }
  align E. align Ea. exact Eu0.
Qed.

Section Renamed.

Variables old new : str.
Hypothesis Hold : plain_name old.
Hypothesis Hnew : plain_name new.

Variables s out1 out : str.
Hypothesis sub1 : Rw (entity_text old) (entity_out new) None s out1.
Hypothesis sub2 :
  Rw (architecture_text old) (architecture_out old new) None out1 out.

(** An entity declaration of the old name reads the new name in the
    output. *)
Lemma entity_site_rewritten a w b :
  s = a ++ w ++ b -> entity_text old w -> wordish (lastc None a) = false ->
  exists a' b',
    out = a' ++ (lit "entity " ++ new ++ lit " is") ++ b'
    /\ wordish (lastc None a') = false.
Proof.
  intros E Hw Hb. rewrite E in sub1.
  destruct (@Rw_replaced (entity_text old) (entity_out new)
              (entity_text_first (proj1 Hold))
              (entity_text_last (proj1 Hold)) (@entity_out_last new)
              (entity_text_unique Hold)
              None a w b out1 sub1 Hw Hb
              (@entity_text_clear old None a w b Hold Hw Hb))
    as [a1 [rep [b1 [E1 [Ho [Hb1 _]]]]]].
  rewrite E1 in sub2. unfold entity_out in Ho. subst rep.
  destruct (@Rw_apart (architecture_text old) (architecture_out old new)
              (architecture_text_first (proj1 Hold))
              (architecture_text_last (proj1 Hold))
              (@architecture_out_last old new)
              None a1 (lit "entity " ++ new ++ lit " is") b1 out sub2)
    as [a2 [b2 [E2 [Hb2 _]]]].
  - intros pre m post Em Hm Hp.
    destruct (@apart_EA new old None a1 (lit "entity " ++ new ++ lit " is")
                b1 pre m post Hnew Hold
                (@entity_out_text new w _ eq_refl) Hm Em Hb1 Hp); auto.
  - exists a2, b2. split; [exact E2 | congruence].
Qed.

(** An architecture declaration of the old name reads the new name in
    the output, and keeps its own name. *)
Lemma architecture_site_rewritten a w b id n :
  s = a ++ w ++ b -> ci n old -> architecture_named id n w ->
  wordish (lastc None a) = false ->
  exists a' b',
    out = a' ++ (lit "architecture " ++ id ++ lit " of " ++ new ++ lit " is")
          ++ b'
    /\ wordish (lastc None a') = false.
Proof.
  intros E Hn Hw Hb. rewrite E in sub1.
  assert (Ht : architecture_text old w) by (exists id, n; auto).
  destruct (@Rw_apart (entity_text old) (entity_out new)
              (entity_text_first (proj1 Hold))
              (entity_text_last (proj1 Hold)) (@entity_out_last new)
              None a w b out1 sub1)
    as [a1 [b1 [E1 [Hb1 _]]]].
  { intros pre m post Em Hm Hp.
    destruct (@apart_EA old old None pre m post a w b Hold Hold Hm Ht
                (eq_sym Em) Hp Hb); auto. }
  rewrite E1 in sub2. rewrite Hb in Hb1.
  destruct (@Rw_replaced (architecture_text old) (architecture_out old new)
              (architecture_text_first (proj1 Hold))
              (architecture_text_last (proj1 Hold))
              (@architecture_out_last old new)
              (architecture_text_unique Hold)
              None a1 w b1 out sub2 Ht Hb1
              (@architecture_text_clear old None a1 w b1 Hold Ht Hb1))
    as [a2 [rep [b2 [E2 [[id' [n' [Hn' [Hw' ->]]]] [Hb2 _]]]]]].
  rewrite (architecture_named_id (proj1 Hold) Hn Hn' Hw Hw').
  exists a2, b2. auto.
Qed.

Hypothesis Hdiff : ~ ci old new.

(** No entity declaration of the old name is left. *)
Lemma no_entity_left : ~ Site (fun w _ => entity_text old w) out.
Proof.
  intros [x [m [y [E [Hb Hm]]]]].
  destruct (@Rw_origin (architecture_text old) (architecture_out old new)
              (entity_text old)
              (architecture_text_last (proj1 Hold))
              (@architecture_out_last old new))
    with (prev := @None ascii) (s := out1) (out := out) (p0 := @None ascii)
         (g := @nil ascii) (x := x) (m := m) (y := y)
    as [x0 [y0 [E0 Hb0]]]; auto.
  { intros p pre w rep rest x1 m1 y1 Hw Ho Hm1 E1 Hp Hx.
    apply architecture_out_text in Ho. symmetry in E1.
    destruct (@apart_EA old new p x1 m1 y1 pre rep rest Hold Hnew Hm1 Ho
                E1 Hx Hp); auto. }
  simpl in E0.
  apply (@Rw_done (entity_text old) (entity_out new)
           (entity_text_first (proj1 Hold))
           (entity_text_last (proj1 Hold)) (@entity_out_last new))
    with (prev := @None ascii) (s := s) (out := out1) (p0 := @None ascii)
         (g := @nil ascii) (x := x0) (m := m) (y := y0); auto.
  - intros p pre w rep rest x1 m1 y1 Hw Ho Hm1 E1 Hp Hx.
    apply entity_out_text in Ho. symmetry in E1.
    destruct (@apart_EE old new p x1 m1 y1 pre rep rest Hold Hnew Hdiff Hm1
                Ho E1 Hx Hp); auto.
  - intros; simpl; lia.
Qed.

(** No architecture declaration of the old name is left. *)
Lemma no_architecture_left : ~ Site (fun w _ => architecture_text old w) out.
Proof.
  intros [x [m [y [E [Hb Hm]]]]].
  apply (@Rw_done (architecture_text old) (architecture_out old new)
           (architecture_text_first (proj1 Hold))
           (architecture_text_last (proj1 Hold))
           (@architecture_out_last old new))
    with (prev := @None ascii) (s := out1) (out := out) (p0 := @None ascii)
         (g := @nil ascii) (x := x) (m := m) (y := y); auto.
  - intros p pre w rep rest x1 m1 y1 Hw Ho Hm1 E1 Hp Hx.
    apply architecture_out_text in Ho. symmetry in E1.
    destruct (@apart_AA old new p x1 m1 y1 pre rep rest Hold Hnew Hdiff Hm1
                Ho E1 Hx Hp); auto.
  - intros; simpl; lia.
Qed.

End Renamed.

(* ----------------------------------------------------------------- *)
(** *** Counting an identifier *)

Lemma startswith_app_l (x u v : str) :
  startswith x u = true -> startswith x (u ++ v) = true.
Proof.
  intros H. apply startswith_iff in H. destruct H as [b ->].
  apply startswith_iff. exists (b ++ v). rewrite app_assoc. reflexivity.
Qed.

Lemma NoStraddle_tail x c u v : NoStraddle x (c :: u) v -> NoStraddle x u v.
Proof.
  intros H u0 x1 x2 v0 E1 E2 E3.
  apply (H (c :: u0) x1 x2 v0); auto. rewrite E1. reflexivity.
Qed.

(** Occurrences add up over a seam that none of them crosses. *)
Lemma occurrences_app (x u : str) :
  forall v, NoStraddle x u v ->
            occurrences x (u ++ v) = occurrences x u + occurrences x v.
Proof.
  induction u as [|c u IH]; intros v H; [reflexivity|].
  cbn [app occurrences]. rewrite (IH v (NoStraddle_tail H)).
  assert (E : startswith x (c :: u ++ v) = startswith x (c :: u)).
  { destruct (startswith x (c :: u)) eqn:S1.
    - apply (startswith_app_l _ _ v) in S1. exact S1.
    - destruct (startswith x (c :: u ++ v)) eqn:S2; [|reflexivity].
      exfalso. apply startswith_iff in S2. destruct S2 as [b S2].
      change (c :: u ++ v) with ((c :: u) ++ v) in S2.
      destruct (le_lt_dec (length x) (length (c :: u))) as [L | L].
      + symmetry in S2. destruct (app_eq_app_le _ _ _ _ S2 L) as [m [Em _]].
        assert (S3 : startswith x (c :: u) = true)
          by (apply startswith_iff; eauto).
        congruence.
      + destruct (app_eq_app_le _ _ _ _ S2 (Nat.lt_le_incl _ _ L))
          as [m [Em Ev]].
        destruct (H [] (c :: u) m b eq_refl Ev Em) as [C | C];
          [discriminate|].
        subst m. rewrite app_nil_r in Em. subst x. lia. }
  rewrite E. lia.
Qed.

Lemma occurrences_none (x s : str) : ~ Occurs x s -> occurrences x s = 0.
Proof.
  induction s as [|c s IH]; intros H; [reflexivity|].
  cbn [occurrences]. rewrite IH.
  - destruct (startswith x (c :: s)) eqn:S1; [|reflexivity].
    exfalso. apply H. apply startswith_iff in S1. destruct S1 as [b S1].
    exists [], b. exact S1.
  - intros [a [b ->]]. apply H. exists (c :: a), b. reflexivity.
Qed.

Section Counting.

Variable x : str.
Hypothesis x_word : word1 x.

(** No occurrence crosses a word boundary. *)
Lemma NoStraddle_after (u v : str) (p : option ascii) :
  wordish (lastc p u) = false -> NoStraddle x u v.
Proof.
  intros Hu u0 x1 x2 v0 E1 E2 E3.
  destruct x1 as [|c x1]; [left; reflexivity | exfalso].
  rewrite E1, lastc_app in Hu.
  rewrite (@word_run_last (c :: x1) (lastc p u0)) in Hu; [discriminate..|].
  destruct x_word as [_ Hx]. rewrite E3 in Hx.
  apply forallb_app_l in Hx. exact Hx.
Qed.

Lemma NoStraddle_before (u v : str) :
  stops isword v -> NoStraddle x u v.
Proof.
  intros Hv u0 x1 x2 v0 E1 E2 E3.
  destruct x2 as [|c x2]; [right; reflexivity | exfalso].
  subst v. simpl in Hv. destruct x_word as [_ Hx]. rewrite E3 in Hx.
  apply forallb_app_r in Hx. simpl in Hx. apply andb_true_iff in Hx.
  destruct Hx; congruence.
Qed.

Lemma NoStraddle_spaces (s v : str) : spaces1 s -> NoStraddle x s v.
Proof.
  intros [Hn Hs] u0 x1 x2 v0 E1 E2 E3.
  destruct x1 as [|c x1]; [left; reflexivity | exfalso].
  destruct x_word as [_ Hx]. rewrite E3 in Hx. apply forallb_app_l in Hx.
  rewrite E1 in Hs. apply forallb_app_r in Hs. simpl in Hs, Hx.
  apply andb_true_iff in Hs, Hx.
  rewrite (space_not_word c) in Hx; [destruct Hx; discriminate | apply Hs].
Qed.

Lemma occurrences_spaces (s : str) :
  forallb isspace s = true -> occurrences x s = 0.
Proof.
  intros Hs. apply occurrences_none. intros [a [b E]].
  destruct x_word as [Hn Hx]. destruct x as [|c x']; [congruence|].
  rewrite E in Hs. apply forallb_app_r in Hs. simpl in Hs, Hx.
  apply andb_true_iff in Hs, Hx.
  rewrite (space_not_word c) in Hx; [destruct Hx; discriminate | apply Hs].
Qed.

(** In a phrase, the occurrences are those in its words. *)
Lemma occurrences_phrase_cons u s v r :
  Phrase u ((s, v) :: r) ->
  occurrences x (phrase u ((s, v) :: r))
  = occurrences x u + occurrences x (phrase v r).
Proof.
  cbn [Phrase phrase]. intros [Hu [Hs HP]].
  rewrite occurrences_app.
  2:{ apply NoStraddle_before. apply stops_word_spaces. exact Hs. }
  rewrite occurrences_app by (apply NoStraddle_spaces; exact Hs).
  rewrite (@occurrences_spaces s (proj2 Hs)). reflexivity.
Qed.

(** A word that reads a keyword holds no occurrence of a text that the
    keyword does not hold. *)
Lemma occurrences_ci (u k : str) :
  ci u k -> contains (lower x) (lower k) = false -> occurrences x u = 0.
Proof.
  intros Hu Hk. apply occurrences_none. intros [a [b E]].
  apply contains_false_iff in Hk. apply Hk. rewrite <- Hu, E, !lower_app.
  exists (lower a), (lower b). reflexivity.
Qed.

Lemma space_run_last (s : str) (p : option ascii) :
  spaces1 s -> wordish (lastc p s) = false.
Proof.
  intros [Hn Hs]. revert p. induction s as [|c s IH]; intros p; [congruence|].
  simpl in Hs. apply andb_true_iff in Hs. destruct Hs as [Hc Hs].
  destruct s as [|d s]; [simpl; apply space_not_word; exact Hc|].
  change (wordish (lastc (Some c) (d :: s)) = false).
  apply IH; [discriminate | exact Hs].
Qed.

Hypothesis x_s : startswith (lit "s") (lower x) = false.
Hypothesis x_is : startswith (lit "is") (lower x) = false.

(** No occurrence starts in the word [is] that ends a clause and goes on
    after it. *)
Lemma NoStraddle_is (pre s i v : str) :
  spaces1 s -> ci i (lit "is") -> NoStraddle x (pre ++ s ++ i) v.
Proof.
  intros Hs Hi u0 x1 x2 v0 E1 E2 E3.
  destruct x1 as [|c x1]; [left; reflexivity | exfalso].
  assert (W1 : forallb isword (c :: x1) = true).
  { destruct x_word as [_ Hx]. rewrite E3 in Hx.
    apply forallb_app_l in Hx. exact Hx. }
  assert (Li := lower_eq_length _ _ Hi). change (length (lit "is")) with 2 in Li.
  rewrite app_assoc in E1.
  destruct (le_lt_dec (length (pre ++ s)) (length u0)) as [L | L].
  - destruct (app_eq_app_le _ _ _ _ E1 L) as [m [Eu Ei]].
    assert (Lx : lower x = lower (c :: x1) ++ lower x2)
      by (rewrite E3; apply lower_app).
    destruct m as [|m0 [|m1 m]].
    + simpl in Ei. subst i. unfold ci in Hi. rewrite Hi in Lx.
      rewrite Lx in x_is. discriminate.
    + subst i. simpl in Li. destruct x1; [|simpl in Li; lia].
      unfold ci in Hi. simpl in Hi. inversion Hi as [[H0 H1]].
      rewrite Lx in x_s. simpl in x_s. rewrite H1 in x_s. discriminate.
    + subst i. simpl in Li. rewrite length_app in Li. simpl in Li. lia.
  - symmetry in E1.
    destruct (app_eq_app_le _ _ _ _ E1 (Nat.lt_le_incl _ _ L))
      as [m [Eu Ex]].
    assert (Hm : m <> []).
    { intros ->. rewrite app_nil_r in Eu. subst u0. lia. }
    assert (Hl := f_equal (lastc None) Eu). rewrite !lastc_app in Hl.
    assert (H1 : wordish (lastc (lastc None pre) s) = false)
      by (apply space_run_last; exact Hs).
    assert (H2 : wordish (lastc (lastc None u0) m) = true).
    { apply word_run_last; auto. rewrite Ex in W1.
      apply forallb_app_l in W1. exact W1. }
    congruence.
Qed.

End Counting.

Section RwCount.

Variable Cl : str -> Prop.
Variable Out : str -> str -> Prop.
Variable x : str.

Hypothesis x_word : word1 x.

(** Clauses and their replacements hold as many occurrences, and none
    that goes on after them. *)
Hypothesis Cl_count :
  forall w rep v,
    Cl w -> Out w rep ->
    NoStraddle x w v /\ NoStraddle x rep v
    /\ occurrences x w = occurrences x rep.

(** The rewriting keeps the number of occurrences. *)
Lemma Rw_count prev s out :
  Rw Cl Out prev s out ->
  forall p0 g,
    lastc p0 g = prev ->
    occurrences x (g ++ out) = occurrences x (g ++ s).
Proof.
  induction 1 as [prev | prev c s out Hno HR IH
                  | prev w post rep out Hw Hp Ho HR IH];
    intros p0 g Hg.
  - reflexivity.
  - specialize (IH p0 (g ++ [c])). rewrite lastc_app in IH.
    rewrite <- !app_assoc in IH. apply IH. reflexivity.
  - subst prev.
    assert (Sg : forall v, NoStraddle x g v).
    { intros v. apply (@NoStraddle_after x x_word g v p0); auto. }
    destruct (Cl_count out Hw Ho) as [_ [S1 Ec]].
    destruct (Cl_count post Hw Ho) as [S2 _].
    rewrite !occurrences_app by auto.
    specialize (IH (lastc (lastc p0 g) w) [] eq_refl). simpl in IH. lia.
Qed.

End RwCount.

Section IdentifierKept.

Variables old new x : str.
Hypothesis Hold : word1 old.
Hypothesis Hnew : word1 new.
Hypothesis x_word : word1 x.
Hypothesis x_s : startswith (lit "s") (lower x) = false.
Hypothesis x_is : startswith (lit "is") (lower x) = false.
Hypothesis x_keywords :
  forall k,
    In k [lit "entity"; lit "architecture"; lit "of"; lit "is"; old; new] ->
    contains (lower x) (lower k) = false.

Lemma entity_count :
  forall w rep v,
    entity_text old w -> entity_out new w rep ->
    NoStraddle x w v /\ NoStraddle x rep v
    /\ occurrences x w = occurrences x rep.
Proof.
  intros w rep v Hw Ho. apply entity_out_text in Ho.
  assert (G : forall k u, In k [old; new] -> entity_text k u ->
                NoStraddle x u v /\ occurrences x u = 0).
  { intros k u Hk Hu.
    assert (Wk : word1 k) by (destruct Hk as [<- | [<- | []]]; assumption).
    destruct (entity_text_phrase Wk Hu)
      as [e [s1 [n [s2 [i [-> [P [He [Hn Hi]]]]]]]]].
    split.
    - cbn [phrase]. rewrite 2!app_assoc, <- (app_assoc e).
      apply NoStraddle_is; auto. simpl in P. tauto.
    - rewrite (occurrences_phrase_cons x_word P).
      rewrite (@occurrences_phrase_cons x x_word n s2 i [])
        by (simpl in *; tauto).
      cbn [phrase].
      rewrite (@occurrences_ci x e (lit "entity")),
        (@occurrences_ci x n k), (@occurrences_ci x i (lit "is")); auto;
        apply x_keywords; simpl; intuition. }
  destruct (G old w) as [S1 C1]; [simpl; auto | exact Hw|].
  destruct (G new rep) as [S2 C2]; [simpl; auto | exact Ho|].
  repeat split; auto. congruence.
Qed.

Lemma architecture_count :
  forall w rep v,
    architecture_text old w -> architecture_out old new w rep ->
    NoStraddle x w v /\ NoStraddle x rep v
    /\ occurrences x w = occurrences x rep.
Proof.
  intros w rep v Hw Ho.
  assert (G : forall k id n u,
                In k [old; new] -> ci n k -> architecture_named id n u ->
                NoStraddle x u v /\ occurrences x u = occurrences x id).
  { intros k id n u Hk Hn Hu.
    assert (Wk : word1 k) by (destruct Hk as [<- | [<- | []]]; assumption).
    destruct (architecture_named_phrase (ci_word1 Hn Wk) Hu)
      as [a [s1 [s2 [o [s3 [s4 [i [-> [P [Ha [Ho' Hi]]]]]]]]]]].
    split.
    - cbn [phrase].
      rewrite 6!app_assoc, <- 5!(app_assoc a), <- 4!(app_assoc s1),
        <- 3!(app_assoc id), <- 2!(app_assoc s2), <- (app_assoc o).
      apply NoStraddle_is; auto. simpl in P. tauto.
    - rewrite (occurrences_phrase_cons x_word P).
      rewrite (@occurrences_phrase_cons x x_word id s2 o
                 [(s3, n); (s4, i)]) by (simpl in *; tauto).
      rewrite (@occurrences_phrase_cons x x_word o s3 n [(s4, i)])
        by (simpl in *; tauto).
      rewrite (@occurrences_phrase_cons x x_word n s4 i [])
        by (simpl in *; tauto).
      cbn [phrase].
      rewrite (@occurrences_ci x a (lit "architecture")),
        (@occurrences_ci x o (lit "of")),
        (@occurrences_ci x n k), (@occurrences_ci x i (lit "is")); auto;
        try (apply x_keywords; simpl; intuition); try lia. }
  destruct Ho as [id [n [Hn [Hu ->]]]].
  destruct (G old id n w) as [S1 C1]; auto; [simpl; auto|].
  destruct (G new id new
              (lit "architecture " ++ id ++ lit " of " ++ new ++ lit " is"))
    as [S2 C2]; [simpl; auto | reflexivity | |].
  - exists (lit "architecture"), (lit " "), (lit " "), (lit "of"), (lit " "),
      (lit " "), (lit "is").
    destruct Hu as [a [s1 [s2 [o [s3 [s4 [i [_ [_ [_ [Hid _]]]]]]]]]]].
    repeat split; try discriminate; try reflexivity; apply Hid.
  - repeat split; auto. congruence.
Qed.

(** The two substitutions keep the number of occurrences of [x]. *)
Lemma identifier_kept s out1 out :
  Rw (entity_text old) (entity_out new) None s out1 ->
  Rw (architecture_text old) (architecture_out old new) None out1 out ->
  occurrences x out = occurrences x s.
Proof.
  intros R1 R2.
  assert (E1 := @Rw_count _ _ x x_word entity_count _ _ _ R1 None []
                  eq_refl).
  assert (E2 := @Rw_count _ _ x x_word architecture_count _ _ _ R2 None []
                  eq_refl).
  simpl in E1, E2. congruence.
Qed.

End IdentifierKept.

(* ----------------------------------------------------------------- *)
(** *** Rewriting [foo] to [bar] *)

(** The VHDL branch of [_replace_entity_name] is the two rewritings, one
    after the other. *)
Lemma replace_vhdl (old new s : str) :
  word1 old -> word1 new ->
  exists out1 out,
    _replace_entity_name s old new vhdl = Ok out
    /\ Rw (entity_text old) (entity_out new) None s out1
    /\ Rw (architecture_text old) (architecture_out old new) None out1 out.
Proof.
  intros Ho Hn. unfold _replace_entity_name.
  change (str_eqb vhdl vhdl) with true. cbv iota.
  destruct (re_sub_entity Ho Hn s) as [out1 [E1 R1]].
  destruct (re_sub_architecture Ho Hn out1) as [out [E2 R2]].
  exists out1, out. rewrite E1. cbn [of_option bind]. rewrite E2. auto.
Qed.

Lemma plain_name_foo : plain_name (lit "foo").
Proof.
  split; [split; [discriminate | reflexivity]|].
  repeat split; unfold ci; vm_compute; discriminate.
Qed.

Lemma plain_name_bar : plain_name (lit "bar").
Proof.
  split; [split; [discriminate | reflexivity]|].
  repeat split; unfold ci; vm_compute; discriminate.
Qed.

(** C2: in a VHDL source where an entity declaration of [foo] and the
    declaration of the architecture [arch] of [foo] stand, each at a word
    boundary, rewriting [foo] to [bar] gives a source in which the texts
    [entity bar is] and [architecture arch of bar is] both stand, in which
    no entity or architecture declaration reads [foo] any more, and which
    holds as many occurrences of the identifier [foobar] as the source. *)
Theorem rewrite_foo_to_bar (source : str) :
  Site (fun w _ => entity_text (lit "foo") w) source ->
  Site (fun w _ => exists n, ci n (lit "foo")
                             /\ architecture_named (lit "arch") n w) source ->
  exists out,
    _replace_entity_name source (lit "foo") (lit "bar") vhdl = Ok out
    /\ Site (fun w _ => w = lit "entity bar is") out
    /\ Site (fun w _ => w = lit "architecture arch of bar is") out
    /\ ~ Site (fun w _ => entity_text (lit "foo") w) out
    /\ ~ Site (fun w _ => architecture_text (lit "foo") w) out
    /\ occurrences (lit "foobar") out = occurrences (lit "foobar") source.
Proof.
  intros [a1 [w1 [b1 [E1 [B1 H1]]]]] [a2 [w2 [b2 [E2 [B2 [n [Hn H2]]]]]]].
  destruct (@replace_vhdl (lit "foo") (lit "bar") source)
    as [out1 [out [E [R1 R2]]]];
    [apply plain_name_foo | apply plain_name_bar |].
  exists out. split; [exact E|].
  assert (D : ~ ci (lit "foo") (lit "bar"))
    by (unfold ci; vm_compute; discriminate).
  split; [|split; [|split; [|split]]].
  - destruct (@entity_site_rewritten _ _ plain_name_foo plain_name_bar
                _ _ _ R1 R2 a1 w1 b1 E1 H1 B1) as [a' [b' [Eo Bo]]].
    exists a', (lit "entity bar is"), b'. auto.
  - destruct (@architecture_site_rewritten _ _ plain_name_foo
                _ _ _ R1 R2 a2 w2 b2 _ _ E2 Hn H2 B2) as [a' [b' [Eo Bo]]].
    exists a', (lit "architecture arch of bar is"), b'. auto.
  - apply (@no_entity_left _ _ plain_name_foo plain_name_bar _ _ _ R1 R2 D).
  - apply (@no_architecture_left _ _ plain_name_foo plain_name_bar _ _
             R2 D).
  - apply (@identifier_kept (lit "foo") (lit "bar") (lit "foobar"))
      with (out1 := out1); auto;
      try (split; [discriminate | reflexivity]).
    intros k Hk. simpl in Hk.
    repeat (destruct Hk as [<- | Hk]; [reflexivity|]). destruct Hk.
Qed.

Lemma rewrite_foo_to_bar_witness :
  Site (fun w _ => entity_text (lit "foo") w) foo_source
  /\ Site (fun w _ => exists n, ci n (lit "foo")
                                /\ architecture_named (lit "arch") n w)
       foo_source
  /\ exists out,
       _replace_entity_name foo_source (lit "foo") (lit "bar") vhdl = Ok out
       /\ Site (fun w _ => w = lit "entity bar is") out
       /\ Site (fun w _ => w = lit "architecture arch of bar is") out
       /\ ~ Site (fun w _ => entity_text (lit "foo") w) out
       /\ ~ Site (fun w _ => architecture_text (lit "foo") w) out
       /\ occurrences (lit "foobar") out
          = occurrences (lit "foobar") foo_source.
Proof.
  assert (S1 : Site (fun w _ => entity_text (lit "foo") w) foo_source).
  { exists [], (lit "entity foo is"),
      (skipn 13 foo_source).
    split; [reflexivity|]. split; [reflexivity|].
    exists (lit "foo"). split; [reflexivity|].
    exists (lit "entity"), (lit " "), (lit " "), (lit "is").
    repeat split; try discriminate; reflexivity. }
  assert (S2 : Site (fun w _ => exists n, ci n (lit "foo")
                        /\ architecture_named (lit "arch") n w) foo_source).
  { exists (firstn 23 foo_source), (lit "architecture arch of foo is"),
      (skipn 50 foo_source).
    split; [reflexivity|]. split; [reflexivity|].
    exists (lit "foo"). split; [reflexivity|].
    exists (lit "architecture"), (lit " "), (lit " "), (lit "of"), (lit " "),
      (lit " "), (lit "is").
    repeat split; try discriminate; reflexivity. }
  split; [exact S1|]. split; [exact S2|].
  exact (@rewrite_foo_to_bar foo_source S1 S2).
Defined.

(* ################################################################# *)
(** End of the development. *)
